(** * bus-stop-api: the sliding-window rate limiter and the nearby-stop queries

    A shallow embedding of [utils/rate_limit.py] and
    [controllers/bus_stop_controller.py], with the theorems that relate the
    code to its specification, followed by the code around them:
    [utils/parquet.py], [utils/auth.py], [routes/bus_stops.py], [main.py]
    and [utils/logging_conf.py], with the properties that the code shows.

    Numbers.  Python's [float] timestamps are modelled as rationals [Q]
    (every finite float is a rational; the subtraction [now - WINDOW_SECONDS]
    is taken exactly).  Latitudes, longitudes and distances are modelled as
    real numbers [R], since the distance is built from [sin], [cos], [sqrt]
    and [asin]; IEEE rounding is not modelled.

    The store.  [query_stops] hands an SQL text to DuckDB.  Each of the four
    query texts of the controller is embedded as the function it computes
    from the rows of [stops.parquet], clause by clause ([WHERE], [ORDER BY],
    [LIMIT], [OFFSET]); [limit] and [offset] are natural numbers, which is
    what the routes let through ([ge=1], [ge=0]).  Strings are ASCII. *)

From stdpp Require Import gmap strings list.
From Stdlib Require Import Ascii DecimalString.
From Stdlib Require Import QArith Lqa ZArith Lia.
From Stdlib Require Import Reals Lra Machin.
From Stdlib Require Import Sorting.Sorted Psatz.

(** ** utils/rate_limit.py *)

Module RateLimit.

(** The two module-level constants; the tests rebind them, so they are a
    record and not fixed numbers. *)
Record config := Config {
  MAX_REQUESTS : Z;
  WINDOW_SECONDS : Q
}.

Definition default_config : config :=
  {| MAX_REQUESTS := 600; WINDOW_SECONDS := 60 |}.

(** [REQUESTS = defaultdict(list)]: a client that is absent reads as [[]]. *)
Abbreviation requests := (gmap string (list Q)).

Definition get (REQUESTS : requests) (client_id : string) : list Q :=
  default [] (REQUESTS !! client_id).

(** Python's [t > window_start] on timestamps. *)
Definition gt (t window_start : Q) : bool := negb (Qle_bool t window_start).

(** [rate_limiter(client_id)]; the clock reading [time.time()] is the
    argument [now], the dictionary is threaded through. *)
Definition rate_limiter (cfg : config) (now : Q) (client_id : string)
    (REQUESTS : requests) : bool * requests :=
  let window_start := (now - WINDOW_SECONDS cfg)%Q in
  let REQUESTS1 :=
    <[client_id := List.filter (fun t => gt t window_start) (get REQUESTS client_id)]>
      REQUESTS in
  if (MAX_REQUESTS cfg <=? Z.of_nat (length (get REQUESTS1 client_id)))%Z
  then (false, REQUESTS1)
  else (true, <[client_id := get REQUESTS1 client_id ++ [now]]> REQUESTS1).

(** A sequence of calls, each with its clock reading and its client. *)
Fixpoint run (cfg : config) (calls : list (Q * string)) (REQUESTS : requests)
    : list bool * requests :=
  match calls with
  | [] => ([], REQUESTS)
  | (now, client_id) :: rest =>
      let '(b, REQUESTS1) := rate_limiter cfg now client_id REQUESTS in
      let '(bs, REQUESTS2) := run cfg rest REQUESTS1 in
      (b :: bs, REQUESTS2)
  end.

(** The timestamps of a record that are still inside the window at [now]. *)
Definition in_window (cfg : config) (now : Q) (l : list Q) : list Q :=
  List.filter (fun t => gt t (now - WINDOW_SECONDS cfg)%Q) l.

(** The constants of the two scenarios of the specification. *)
Definition scenario_3_60 : config := {| MAX_REQUESTS := 3; WINDOW_SECONDS := 60 |}.
Definition scenario_2_10 : config := {| MAX_REQUESTS := 2; WINDOW_SECONDS := 10 |}.

(** The invariant of the dictionary: every record is ascending, holds only
    clock readings up to [hi], and has at most [MAX_REQUESTS] entries. *)
Definition inv (cfg : config) (hi : Q) (st : requests) : Prop :=
  forall c, StronglySorted Qle (get st c) /\
            Forall (fun t => (t <= hi)%Q) (get st c) /\
            (Z.of_nat (length (get st c)) <= MAX_REQUESTS cfg)%Z.

End RateLimit.

(** ** utils/parquet.py and controllers/bus_stop_controller.py *)

Module BusStops.

Open Scope string_scope.

(** *** Strings, as far as the queries need them

    A string is a sequence of 8-bit characters.  The case folding below is
    the one of Python and of DuckDB on ASCII text only: it changes the
    letters [a]-[z] and [A]-[Z] and leaves every other character alone, where
    the code folds the letters of all of Unicode.  The theorems that depend
    on the case of a name are therefore stated for ASCII names and texts
    ([isascii], [ascii_names] below). *)

Definition upper_ascii (c : ascii) : ascii :=
  let n := N_of_ascii c in
  if ((97 <=? n) && (n <=? 122))%N then ascii_of_N (n - 32) else c.

Definition lower_ascii (c : ascii) : ascii :=
  let n := N_of_ascii c in
  if ((65 <=? n) && (n <=? 90))%N then ascii_of_N (n + 32) else c.

(** Python's [str.upper()] and SQL's [UPPER(...)], on ASCII text. *)
Fixpoint upper (s : string) : string :=
  match s with
  | EmptyString => EmptyString
  | String c s' => String (upper_ascii c) (upper s')
  end.

Definition UPPER : string -> string := upper.

Fixpoint lower (s : string) : string :=
  match s with
  | EmptyString => EmptyString
  | String c s' => String (lower_ascii c) (lower s')
  end.

(** SQL's [s LIKE pat]: [%] stands for any run of characters, [_] for any one
    character, every other character for itself (no escape character, as
    in DuckDB when no [ESCAPE] is given). *)
Fixpoint like (pat s : string) : bool :=
  match pat with
  | EmptyString => match s with EmptyString => true | String _ _ => false end
  | String p pat' =>
      if Ascii.eqb p "%" then
        (fix any_run (s : string) : bool :=
           like pat' s ||
           match s with
           | EmptyString => false
           | String _ s' => any_run s'
           end) s
      else
        match s with
        | EmptyString => false
        | String c s' => (Ascii.eqb p "_" || Ascii.eqb p c) && like pat' s'
        end
  end.

(** SQL's [s ILIKE pat]: [LIKE] without regard to case, on ASCII text. *)
Definition ILIKE (s pat : string) : bool := like (lower pat) (lower s).

(** [str(stop_code)] inside an f-string. *)
Definition str (z : Z) : string := NilZero.string_of_int (Z.to_int z).

(** *** Numbers of the distance query *)

Definition RADIANS (x : R) : R := (x * PI / 180)%R.
Definition POWER (x : R) (n : nat) : R := (x ^ n)%R.
Definition SIN : R -> R := sin.
Definition COS : R -> R := cos.
Definition SQRT : R -> R := sqrt.
Definition ASIN : R -> R := asin.

(** Python's [x <= y] on the numbers of a row. *)
Definition Rleb (x y : R) : bool := if Rle_dec x y then true else false.

(** *** Rows *)

(** A row of [stops.parquet]. *)
Record StopRecord := {
  stop_code : Z;
  stop_name : string;
  latitude : R;
  longitude : R;
  parent_station : option string;
  x_meters : option R;
  y_meters : option R
}.

(** The row of [list_stops]. *)
Record StopSummary := {
  ls_stop_code : Z;
  ls_stop_name : string;
  ls_latitude : R;
  ls_longitude : R;
  ls_parent_station : option string
}.

(** The row of the reference query of [get_nearby_by_name]. *)
Record RefStop := {
  ref_stop_code : Z;
  ref_stop_name : string;
  stop_lat : R;
  stop_lon : R
}.

(** The row of the two distance queries. *)
Record NearbyStop := {
  nb_stop_code : Z;
  nb_stop_name : string;
  nb_latitude : R;
  nb_longitude : R;
  nb_parent_station : option string;
  distance_m : R
}.

(** *** The SQL clauses used by the queries *)

Section Clauses.
Context {A : Type}.

(** [ORDER BY]: an insertion sort for the order [leb].  Rows that compare
    equal keep the order of the file; the theorems below only use that the
    result is ordered and holds the same rows. *)
Fixpoint insert_by (leb : A -> A -> bool) (x : A) (l : list A) : list A :=
  match l with
  | [] => [x]
  | y :: l' => if leb x y then x :: l else y :: insert_by leb x l'
  end.

Definition ORDER_BY (leb : A -> A -> bool) (l : list A) : list A :=
  fold_right (insert_by leb) [] l.

Definition LIMIT (n : nat) (l : list A) : list A := firstn n l.
Definition OFFSET (n : nat) (l : list A) : list A := skipn n l.
Definition WHERE (p : A -> bool) (l : list A) : list A := List.filter p l.

End Clauses.

(** *** utils/parquet.py *)

Inductive exception :=
  | HTTPException (status_code : Z) (detail : string)
  | FileNotFoundError (message : string).

(** The parquet file: [None] when [data/stops.parquet] does not exist. *)
Definition store := option (list StopRecord).

(** [query_stops(sql, params)].  A query text with its parameters bound is
    given by what it computes from the rows of the view [stops].  The one
    failure modelled is the [FileNotFoundError] that the function raises
    itself; the exceptions of DuckDB (a parameter outside the range of its
    integer types, a file that cannot be read) are not, so the theorems say
    what a call returns when it returns and which of its own exceptions the
    code raises, not that a call with the file present succeeds. *)
Definition query_stops {A : Type} (sql : list StopRecord -> list A) (db : store)
    : exception + list A :=
  match db with
  | None => inl (FileNotFoundError "Parquet file not found at data/stops.parquet")
  | Some stops => inr (sql stops)
  end.

(** *** controllers/bus_stop_controller.py *)

Record ListResponse (A : Type) := {
  count : nat;
  results : list A
}.
Arguments count {A} _.
Arguments results {A} _.

Record NearbyByNameResponse := {
  reference_stop : RefStop;
  bn_radius_m : R;
  bn_count : nat;
  bn_results : list NearbyStop
}.

Record NearbyByCoordsResponse := {
  reference_coords : R * R;
  bc_radius_m : R;
  bc_count : nat;
  bc_results : list NearbyStop
}.

Definition by_stop_code (a b : StopRecord) : bool := (stop_code a <=? stop_code b)%Z.

Definition summary (s : StopRecord) : StopSummary :=
  {| ls_stop_code := stop_code s;
     ls_stop_name := UPPER (stop_name s);
     ls_latitude := latitude s;
     ls_longitude := longitude s;
     ls_parent_station := parent_station s |}.

(** Python's truth value of [name : str | None]. *)
Definition truthy (name : option string) : option string :=
  match name with
  | Some EmptyString => None
  | other => other
  end.

(** [base_sql] of [list_stops] with its parameters. *)
Definition list_stops_sql (name : option string) (limit offset : nat)
    (stops : list StopRecord) : list StopSummary :=
  let selected :=
    match truthy name with
    | Some n => WHERE (fun s => ILIKE (stop_name s) ("%" +:+ n +:+ "%")) stops
    | None => stops
    end in
  map summary (LIMIT limit (OFFSET offset (ORDER_BY by_stop_code selected))).

Definition list_stops (db : store) (limit offset : nat) (name : option string)
    : exception + ListResponse StopSummary :=
  match query_stops (list_stops_sql name limit offset) db with
  | inl e => inl e
  | inr stops => inr {| count := length stops; results := stops |}
  end.

Definition detail (s : StopRecord) : StopRecord :=
  {| stop_code := stop_code s;
     stop_name := UPPER (stop_name s);
     latitude := latitude s;
     longitude := longitude s;
     parent_station := parent_station s;
     x_meters := x_meters s;
     y_meters := y_meters s |}.

Definition get_stop_by_code_sql (code : Z) (stops : list StopRecord)
    : list StopRecord :=
  map detail (WHERE (fun s => (stop_code s =? code)%Z) stops).

(** [get_stop_by_code(stop_code)] for an integer [stop_code], which is what
    the route passes ([stop_code: int]); a call with a text is not modelled. *)
Definition get_stop_by_code (db : store) (code : Z)
    : exception + ListResponse StopRecord :=
  match query_stops (get_stop_by_code_sql code) db with
  | inl e => inl e
  | inr [] => inl (HTTPException 404 ("Stop Code " +:+ str code +:+ " not found"))
  | inr results => inr {| count := length results; results := results |}
  end.

Definition ref_row (s : StopRecord) : RefStop :=
  {| ref_stop_code := stop_code s;
     ref_stop_name := UPPER (stop_name s);
     stop_lat := latitude s;
     stop_lon := longitude s |}.

(** [ref_sql] with its one parameter. *)
Definition ref_sql (pattern : string) (stops : list StopRecord) : list RefStop :=
  map ref_row
    (LIMIT 1 (ORDER_BY by_stop_code
                (WHERE (fun s => ILIKE (UPPER (stop_name s)) pattern) stops))).

(** The [distance_m] column, with the three [?] of the expression in their
    order. *)
Definition distance_m_sql (p1 p2 p3 : R) (s : StopRecord) : R :=
  (2 * 6371000 * ASIN (
     SQRT (
       POWER (SIN (RADIANS (latitude s - p1) / 2)) 2 +
       COS (RADIANS p2) * COS (RADIANS (latitude s)) *
       POWER (SIN (RADIANS (longitude s - p3) / 2)) 2)))%R.

Definition nearby_row (p1 p2 p3 : R) (s : StopRecord) : NearbyStop :=
  {| nb_stop_code := stop_code s;
     nb_stop_name := UPPER (stop_name s);
     nb_latitude := latitude s;
     nb_longitude := longitude s;
     nb_parent_station := parent_station s;
     distance_m := distance_m_sql p1 p2 p3 s |}.

Definition by_distance_m (a b : NearbyStop) : bool :=
  Rleb (distance_m a) (distance_m b).

(** The distance query up to its [ORDER BY]. *)
Definition nearby_ordered (p1 p2 p3 : R) (stops : list StopRecord)
    : list NearbyStop :=
  ORDER_BY by_distance_m (map (nearby_row p1 p2 p3) stops).

(** [nearby_sql] of [get_nearby_by_name], which is also [sql] of
    [get_nearby_by_coords], with its four parameters. *)
Definition nearby_sql (params : R * R * R * nat) (stops : list StopRecord)
    : list NearbyStop :=
  let '(p1, p2, p3, limit) := params in
  LIMIT limit (nearby_ordered p1 p2 p3 stops).

Definition within (radius_m : R) (st : NearbyStop) : bool :=
  Rleb (distance_m st) radius_m.

Definition get_nearby_by_name (db : store) (stop_name : string) (radius_m : R)
    (limit : nat) : exception + NearbyByNameResponse :=
  match query_stops (ref_sql ("%" +:+ upper stop_name +:+ "%")) db with
  | inl e => inl e
  | inr [] =>
      inl (HTTPException 404
             ("No stop found with name like '" +:+ stop_name +:+ "'"))
  | inr (ref :: _) =>
      let ref_lat := stop_lat ref in
      let ref_lon := stop_lon ref in
      let params := (ref_lat, ref_lat, ref_lon, limit) in
      match query_stops (nearby_sql params) db with
      | inl e => inl e
      | inr nearby =>
          let nearby := List.filter (within radius_m) nearby in
          inr {| reference_stop := ref;
                 bn_radius_m := radius_m;
                 bn_count := length nearby;
                 bn_results := nearby |}
      end
  end.

Definition get_nearby_by_coords (db : store) (lat lon radius_m : R) (limit : nat)
    : exception + NearbyByCoordsResponse :=
  let params := (lat, lat, lon, limit) in
  match query_stops (nearby_sql params) db with
  | inl e => inl e
  | inr nearby =>
      let nearby := List.filter (within radius_m) nearby in
      inr {| reference_coords := (lat, lon);
             bc_radius_m := radius_m;
             bc_count := length nearby;
             bc_results := nearby |}
  end.

(** *** The distance as the specification writes it *)

Definition deg2rad (x : R) : R := (x * (PI / 180))%R.

(** [2 * R * asin(sqrt(sin²(Δlat/2) + cos(lat_ref) * cos(lat_row) * sin²(Δlon/2)))]
    with every angle turned into radians first. *)
Definition haversine (lat_ref lon_ref lat_row lon_row : R) : R :=
  let dlat := (deg2rad lat_row - deg2rad lat_ref)%R in
  let dlon := (deg2rad lon_row - deg2rad lon_ref)%R in
  (2 * 6371000 *
   asin (sqrt ((sin (dlat / 2))² +
               cos (deg2rad lat_ref) * cos (deg2rad lat_row) * (sin (dlon / 2))²)))%R.

(** A pattern character that is not a wildcard. *)
Definition plain (c : ascii) : bool := negb (Ascii.eqb c "%") && negb (Ascii.eqb c "_").

Fixpoint no_wildcard (p : string) : bool :=
  match p with
  | EmptyString => true
  | String c p' => plain c && no_wildcard p'
  end.

(** [sub] occurs in [s]. *)
Definition occurs_in (sub s : string) : Prop :=
  exists pre post, s = pre +:+ sub +:+ post.

(** The [WHERE] clause of the reference query of [get_nearby_by_name], for the
    text [stop_name] that the caller gave. *)
Definition name_matches (name : string) (s : StopRecord) : bool :=
  ILIKE (UPPER (stop_name s)) ("%" +:+ upper name +:+ "%").


(** *** Matching a name, as the specification words it

    Python's [str.isascii()]: on such texts [upper], [lower] and [ILIKE]
    above are the code's. *)
Definition isascii_char (c : ascii) : bool := (N_of_ascii c <? 128)%N.

Fixpoint isascii (s : string) : bool :=
  match s with
  | EmptyString => true
  | String c s' => isascii_char c && isascii s'
  end.

(** Every name of the file is ASCII. *)
Definition ascii_names (stops : list StopRecord) : bool :=
  forallb (fun s => isascii (stop_name s)) stops.


(** [wild p s]: the text [p], read as a pattern in which [%] stands for any
    run of characters, [_] for any one character and every other character
    for itself, spells [s]. *)
Inductive wild : string -> string -> Prop :=
  | wild_nil : wild "" ""
  | wild_run p run s : wild p s -> wild (String "%" p) (run +:+ s)
  | wild_one p c s : wild p s -> wild (String "_" p) (String c s)
  | wild_char c p s : plain c = true -> wild p s -> wild (String c p) (String c s).

(** Some part of the name is spelled by the text read as a pattern, without
    regard to case. *)
Definition matches_ci (text name : string) : Prop :=
  exists part, occurs_in part (lower name) /\ wild (lower text) part.

(** *** What the claims say of a response *)

(** What the radius filter does to the rows [nearby] of the distance query. *)
Definition radius_filter_law (radius : R) (nearby results : list NearbyStop) : Prop :=
  results = List.filter (within radius) nearby /\
  (forall st, In st nearby -> (In st results <-> (distance_m st <= radius)%R)) /\
  (radius = 0%R ->
   forall st, In st nearby -> (In st results <-> distance_m st = 0%R)) /\
  ((radius < 0)%R -> results = []).

(** How the rows of a response come out of the rows [ordered] of the
    distance query before its [LIMIT]: the store cuts the ordered rows to
    [limit], the radius filter comes after the cut; the response is ascending
    in distance and no longer than [limit]; cutting before the filter gives the
    same rows as cutting after it, so a response shorter than [limit] holds
    every row of the dataset that is within the radius. *)
Definition limit_then_filter_law (radius : R) (limit : nat)
    (ordered stored results : list NearbyStop) : Prop :=
  stored = LIMIT limit ordered /\
  StronglySorted (fun a b => (distance_m a <= distance_m b)%R) stored /\
  (length stored <= limit)%nat /\
  results = List.filter (within radius) stored /\
  StronglySorted (fun a b => (distance_m a <= distance_m b)%R) results /\
  (length results <= limit)%nat /\
  results = LIMIT limit (List.filter (within radius) ordered) /\
  ((length results < limit)%nat ->
   forall st, In st ordered -> (distance_m st <= radius)%R -> In st results).

(** *** Two rows used as examples: one degree of latitude apart *)

Definition albert : StopRecord :=
  {| stop_code := 7001;
     stop_name := "Stop Albert St";
     latitude := (-3684 / 100)%R;
     longitude := (17476 / 100)%R;
     parent_station := None;
     x_meters := None;
     y_meters := None |}.

Definition queen : StopRecord :=
  {| stop_code := 1315;
     stop_name := "Queen St";
     latitude := (-3684 / 100 + 1)%R;
     longitude := (17476 / 100)%R;
     parent_station := Some "31986";
     x_meters := None;
     y_meters := None |}.

Definition sample_stops : list StopRecord := [albert; queen].

(** The rows of the distance query for the reference point of [albert]. *)
Definition albert_from_albert : NearbyStop :=
  nearby_row (latitude albert) (latitude albert) (longitude albert) albert.
Definition queen_from_albert : NearbyStop :=
  nearby_row (latitude albert) (latitude albert) (longitude albert) queen.

End BusStops.

(** ** Runs of the rate limiter *)

Module RateLimitRuns.
Import RateLimit.

(** The calls of a run paired with what [rate_limiter] answered. *)
Definition answered (cfg : config) (calls : list (Q * string)) (REQUESTS : requests)
    : list ((Q * string) * bool) :=
  combine calls (fst (run cfg calls REQUESTS)).

(** The answers given to one client, in the order of its calls. *)
Definition outcomes (cfg : config) (calls : list (Q * string)) (REQUESTS : requests)
    (client_id : string) : list bool :=
  map snd (List.filter (fun p => String.eqb (snd (fst p)) client_id)
             (answered cfg calls REQUESTS)).

(** The clock readings of the admitted calls of one client. *)
Definition admitted (cfg : config) (calls : list (Q * string)) (REQUESTS : requests)
    (client_id : string) : list Q :=
  map (fun p => fst (fst p))
    (List.filter (fun p => snd p && String.eqb (snd (fst p)) client_id)
       (answered cfg calls REQUESTS)).

(** The calls of one client. *)
Definition calls_of (client_id : string) (calls : list (Q * string))
    : list (Q * string) :=
  List.filter (fun p => String.eqb (snd p) client_id) calls.

(** [a] lies in the window [(t - WINDOW_SECONDS, t]]. *)
Definition in_window_at (cfg : config) (t a : Q) : bool :=
  gt a (t - WINDOW_SECONDS cfg)%Q && Qle_bool a t.

End RateLimitRuns.

(** ** utils/auth.py, routes/bus_stops.py and main.py *)

Module App.
Import RateLimit BusStops.

(** *** utils/auth.py *)

(** Python's [x_api_key != API_KEY], where [API_KEY = os.environ.get("API_KEY")]
    is [None] when the variable is not set. *)
Definition differs (x_api_key : string) (API_KEY : option string) : bool :=
  match API_KEY with
  | Some key => negb (String.eqb x_api_key key)
  | None => true
  end.

Definition require_api_key (API_KEY : option string) (x_api_key : string)
    : exception + unit :=
  if differs x_api_key API_KEY
  then inl (HTTPException 401 "Invalid or missing API Key.")
  else inr tt.

(** *** What FastAPI does with the declarations of the routes

    A parameter declared [Query(default, ge=..., le=...)] takes its default
    when the request has none, and the request is refused with a validation
    error, before the route is called, when the value is out of the declared
    range or a parameter declared [Query(...)] or [Header(...)] is missing. *)

Inductive failure :=
  | Raised (e : exception)
  | RequestValidationError.

Definition raised {A : Type} (r : exception + A) : failure + A :=
  match r with
  | inl e => inl (Raised e)
  | inr a => inr a
  end.

(** *** routes/bus_stops.py *)

(** The parameters a request gives for each route; [None] where the request
    gives none. *)
Inductive stops_request :=
  | GetStops (limit offset : option Z) (name : option string)
  | GetStopByCode (stop_code : Z)
  | GetNearbyByName (stop_name : option string) (radius_m : option R)
      (limit : option Z)
  | GetNearbyByCoords (lat lon : option R) (radius_m : option R) (limit : option Z).

Inductive payload :=
  | Stops (r : ListResponse StopSummary)
  | StopDetails (r : ListResponse StopRecord)
  | NearbyByName (r : NearbyByNameResponse)
  | NearbyByCoords (r : NearbyByCoordsResponse)
  | Health (msg name version : string) (uptime : Z).

Definition between (lo x hi : Z) : bool := ((lo <=? x) && (x <=? hi))%Z.

(** [GET /stops/], [limit = Query(50, ge=1, le=1000)], [offset = Query(0, ge=0)]. *)
Definition route_list_stops (db : store) (limit offset : option Z)
    (name : option string) : failure + payload :=
  let limit := default 50%Z limit in
  let offset := default 0%Z offset in
  if between 1 limit 1000 && (0 <=? offset)%Z
  then match raised (list_stops db (Z.to_nat limit) (Z.to_nat offset) name) with
       | inl f => inl f
       | inr r => inr (Stops r)
       end
  else inl RequestValidationError.

(** [GET /stops/code/{stop_code}]. *)
Definition route_get_stop_by_code (db : store) (stop_code : Z) : failure + payload :=
  match raised (get_stop_by_code db stop_code) with
  | inl f => inl f
  | inr r => inr (StopDetails r)
  end.

(** [GET /stops/nearby/by-name], [stop_name = Query(...)],
    [radius_m = Query(100.0, ge=0)], [limit = Query(20, ge=1, le=200)]. *)
Definition route_nearby_by_name (db : store) (stop_name : option string)
    (radius_m : option R) (limit : option Z) : failure + payload :=
  let radius_m := default 100%R radius_m in
  let limit := default 20%Z limit in
  match stop_name with
  | None => inl RequestValidationError
  | Some stop_name =>
      if Rleb 0 radius_m && between 1 limit 200
      then match raised (get_nearby_by_name db stop_name radius_m (Z.to_nat limit)) with
           | inl f => inl f
           | inr r => inr (NearbyByName r)
           end
      else inl RequestValidationError
  end.

(** [GET /stops/nearby/by-coords], [lat = Query(...)], [lon = Query(...)],
    [radius_m = Query(100.0, ge=0)], [limit = Query(20, ge=1, le=200)]. *)
Definition route_nearby_by_coords (db : store) (lat lon radius_m : option R)
    (limit : option Z) : failure + payload :=
  let radius_m := default 100%R radius_m in
  let limit := default 20%Z limit in
  match lat, lon with
  | Some lat, Some lon =>
      if Rleb 0 radius_m && between 1 limit 200
      then match raised (get_nearby_by_coords db lat lon radius_m (Z.to_nat limit)) with
           | inl f => inl f
           | inr r => inr (NearbyByCoords r)
           end
      else inl RequestValidationError
  | _, _ => inl RequestValidationError
  end.

Definition router (db : store) (q : stops_request) : failure + payload :=
  match q with
  | GetStops limit offset name => route_list_stops db limit offset name
  | GetStopByCode stop_code => route_get_stop_by_code db stop_code
  | GetNearbyByName stop_name radius_m limit =>
      route_nearby_by_name db stop_name radius_m limit
  | GetNearbyByCoords lat lon radius_m limit =>
      route_nearby_by_coords db lat lon radius_m limit
  end.

(** *** main.py *)

(** What the process holds besides [REQUESTS]: the environment variable, the
    file, and the clock reading taken when the module was loaded. *)
Record environment := {
  API_KEY : option string;
  stops_parquet : store;
  start_time : Q
}.

Inductive target :=
  | Root
  | StopsRoute (q : stops_request).

Record request := {
  client_host : string;
  x_api_key : option string;
  path : target
}.

(** Python's [int(x)] on a number: the integer part, towards zero. *)
Definition int (x : Q) : Z := Z.quot (Qnum x) (Zpos (Qden x)).

(** [health()], at the clock reading [now]; the message as its UTF-8 bytes. *)
Definition health (env : environment) (now : Q) : payload :=
  Health "API status 🚀" "bus-stop-api" "1.0.0" (int (now - start_time env)%Q).

(** [app.include_router(bus_stops.router, dependencies=[Depends(require_api_key)])]:
    the dependency, with its required header, comes before the route. *)
Definition guarded_router (env : environment) (req : request) (q : stops_request)
    : failure + payload :=
  match x_api_key req with
  | None => inl RequestValidationError
  | Some key =>
      match require_api_key (API_KEY env) key with
      | inl e => inl (Raised e)
      | inr _ => router (stops_parquet env) q
      end
  end.

(** What [call_next] stands for in this application: the routes behind the
    middleware, answering at the clock reading [now]. *)
Definition endpoints (env : environment) (now : Q) (req : request)
    : failure + payload :=
  match path req with
  | Root => inr (health env now)
  | StopsRoute q => guarded_router env req q
  end.

(** A record handed to the logger: level, message and the [extra] of the
    call. *)
Record log_record := {
  levelname : string;
  msg : string;
  extra_ip : string
}.

(** [rate_limit_middleware(request, call_next)] at the clock reading [now];
    the dictionary is threaded through and the log records are given back. *)
Definition rate_limit_middleware (cfg : config) (now : Q) (req : request)
    (call_next : request -> failure + payload) (REQUESTS : requests)
    : (failure + payload) * requests * list log_record :=
  let client_ip := client_host req in
  let '(allowed, REQUESTS1) := rate_limiter cfg now client_ip REQUESTS in
  if negb allowed
  then (inl (Raised (HTTPException 429 "Too many requests")), REQUESTS1,
        [{| levelname := "WARNING"; msg := "rate_limit_exceeded";
            extra_ip := client_ip |}])
  else (call_next req, REQUESTS1, []).

(** One request through the application: [now] is the clock reading of the
    middleware, [later] the one of the route. *)
Definition app (env : environment) (cfg : config) (now later : Q) (req : request)
    (REQUESTS : requests) : (failure + payload) * requests * list log_record :=
  rate_limit_middleware cfg now req (endpoints env later) REQUESTS.

(** A sequence of requests, each with its two clock readings. *)
Fixpoint serve (env : environment) (cfg : config)
    (reqs : list (Q * Q * request)) (REQUESTS : requests)
    : list (failure + payload) * requests :=
  match reqs with
  | [] => ([], REQUESTS)
  | (now, later, req) :: rest =>
      let '(response, REQUESTS1, _) := app env cfg now later req REQUESTS in
      let '(responses, REQUESTS2) := serve env cfg rest REQUESTS1 in
      (response :: responses, REQUESTS2)
  end.

(** The response of the middleware to a request over the limit. *)
Definition too_many_requests (r : failure + payload) : bool :=
  match r with
  | inl (Raised (HTTPException 429 _)) => true
  | _ => false
  end.

(** The clock readings of the requests of one host that got past the
    middleware. *)
Definition passed (env : environment) (cfg : config)
    (reqs : list (Q * Q * request)) (REQUESTS : requests) (host : string) : list Q :=
  map (fun p => fst (fst (fst p)))
    (List.filter
       (fun p => negb (too_many_requests (snd p)) &&
                 String.eqb (client_host (snd (fst p))) host)
       (combine reqs (fst (serve env cfg reqs REQUESTS)))).

(** An environment and two requests used as examples. *)
Definition example_env : environment :=
  {| API_KEY := Some "s3cret"; stops_parquet := Some sample_stops; start_time := 1000 |}.

Definition health_check : request :=
  {| client_host := "10.0.0.7"; x_api_key := None; path := Root |}.

Definition nearby_albert (key : option string) : request :=
  {| client_host := "10.0.0.7"; x_api_key := key;
     path := StopsRoute (GetNearbyByName (Some "albert") None None) |}.

(** The calls of [rate_limiter] that a sequence of requests makes. *)
Definition limiter_calls (reqs : list (Q * Q * request)) : list (Q * string) :=
  map (fun p => (fst (fst p), client_host (snd p))) reqs.

End App.

(** ** utils/logging_conf.py *)

Module Logging.

(** [json.dumps] of a text with its default [ensure_ascii=True]: the quote,
    the backslash and five control characters have a short escape, every
    other character outside [' '..'~'] is written as [\u00xx] in lower-case
    hexadecimal.  The characters of the texts are code points below 256. *)
Definition hex_digit (n : N) : ascii :=
  if (n <? 10)%N then ascii_of_N (48 + n) else ascii_of_N (87 + n).

Definition json_escape_char (c : ascii) : string :=
  if Ascii.eqb c "034" then String "\" (String "034" "")
  else if Ascii.eqb c "\" then "\\"
  else if Ascii.eqb c "010" then "\n"
  else if Ascii.eqb c "013" then "\r"
  else if Ascii.eqb c "009" then "\t"
  else if Ascii.eqb c "008" then "\b"
  else if Ascii.eqb c "012" then "\f"
  else
    let n := N_of_ascii c in
    if ((n <? 32) || (126 <? n))%N
    then "\u00" +:+ String (hex_digit (n / 16)) (String (hex_digit (n mod 16)) "")
    else String c "".

Fixpoint json_escape (s : string) : string :=
  match s with
  | EmptyString => EmptyString
  | String c s' => json_escape_char c +:+ json_escape s'
  end.

Definition json_string (s : string) : string :=
  String "034" (json_escape s +:+ String "034" "").

(** [json.dumps] of a dictionary from texts to texts, the items in the order
    they were put in, with the default separators. *)
Fixpoint dumps_items (items : list (string * string)) : string :=
  match items with
  | [] => ""
  | (k, v) :: rest =>
      json_string k +:+ ": " +:+ json_string v +:+
      match rest with
      | [] => ""
      | _ :: _ => ", " +:+ dumps_items rest
      end
  end.

Definition dumps (d : list (string * string)) : string :=
  "{" +:+ dumps_items d +:+ "}".

(** What [format] reads of a log record: [levelname], [getMessage()], [name]
    and the time as [formatTime] writes it. *)
Record LogRecord := {
  levelname : string;
  getMessage : string;
  name : string;
  formatTime : string
}.

(** [JsonFormatter.format(record)] *)
Definition format (record : LogRecord) : string :=
  let log := [("level", levelname record);
              ("message", getMessage record);
              ("logger", name record);
              ("time", formatTime record)] in
  dumps log.

(** The warning of the rate limit middleware, from the logger
    ["bus-stop-api"], at the time written as [asctime]. *)
Definition rate_limit_warning (asctime : string) : LogRecord :=
  {| levelname := "WARNING"; getMessage := "rate_limit_exceeded";
     name := "bus-stop-api"; formatTime := asctime |}.

End Logging.

(** Reading a written line back, to state what [format] keeps. *)
Module LoggingRead.
Import Logging.

Definition printable (c : ascii) : bool :=
  ((32 <=? N_of_ascii c) && (N_of_ascii c <=? 126))%N.

Fixpoint all_printable (s : string) : bool :=
  match s with
  | EmptyString => true
  | String c s' => printable c && all_printable s'
  end.

Definition of_hex (c : ascii) : option N :=
  let n := N_of_ascii c in
  if ((48 <=? n) && (n <=? 57))%N then Some (n - 48)%N
  else if ((97 <=? n) && (n <=? 102))%N then Some (n - 87)%N
  else None.

(** A text written by [json_string], read after its opening quote: the text
    and what follows the closing quote. *)
Fixpoint read_string (s : string) : option (string * string) :=
  match s with
  | EmptyString => None
  | String c s1 =>
      if Ascii.eqb c "034" then Some (EmptyString, s1)
      else if Ascii.eqb c "\" then
        match s1 with
        | EmptyString => None
        | String e s2 =>
            if Ascii.eqb e "u" then
              match s2 with
              | String _ (String _ (String h (String l s3))) =>
                  match of_hex h, of_hex l, read_string s3 with
                  | Some a, Some b, Some (t, rest) =>
                      Some (String (ascii_of_N (16 * a + b)) t, rest)
                  | _, _, _ => None
                  end
              | _ => None
              end
            else
              let d :=
                if Ascii.eqb e "n" then "010"%char
                else if Ascii.eqb e "r" then "013"%char
                else if Ascii.eqb e "t" then "009"%char
                else if Ascii.eqb e "b" then "008"%char
                else if Ascii.eqb e "f" then "012"%char
                else e in
              match read_string s2 with
              | Some (t, rest) => Some (String d t, rest)
              | None => None
              end
        end
      else
        match read_string s1 with
        | Some (t, rest) => Some (String c t, rest)
        | None => None
        end
  end.

(** Taking a known text off the front. *)
Fixpoint strip (prefix s : string) : option string :=
  match prefix with
  | EmptyString => Some s
  | String p prefix' =>
      match s with
      | EmptyString => None
      | String c s' => if Ascii.eqb p c then strip prefix' s' else None
      end
  end.

(** The value that follows the text [before], and what follows the value. *)
Definition read_field (before s : string) : option (string * string) :=
  match strip (before +:+ String "034" "") s with
  | Some s1 => read_string s1
  | None => None
  end.

(** A line written by [format], read back. *)
Definition parse (s : string) : option LogRecord :=
  match read_field ("{" +:+ json_string "level" +:+ ": ") s with
  | Some (l, s1) =>
      match read_field (", " +:+ json_string "message" +:+ ": ") s1 with
      | Some (m, s2) =>
          match read_field (", " +:+ json_string "logger" +:+ ": ") s2 with
          | Some (n, s3) =>
              match read_field (", " +:+ json_string "time" +:+ ": ") s3 with
              | Some (t, "}") =>
                  Some {| levelname := l; getMessage := m; name := n;
                          formatTime := t |}
              | _ => None
              end
          | None => None
          end
      | None => None
      end
  | None => None
  end.

End LoggingRead.

(** ** Lists *)

Module ListFacts.
Section ListFacts.
Context {A : Type}.

Lemma StronglySorted_firstn (R : A -> A -> Prop) n (l : list A) :
  StronglySorted R l -> StronglySorted R (firstn n l).
Proof.
  intros H. revert n. induction H as [|a l Hl IH Ha]; intros [|n]; simpl;
    try constructor; [apply IH|].
  apply List.Forall_forall. intros x Hx.
  rewrite List.Forall_forall in Ha. apply Ha.
  rewrite <- (firstn_skipn n l). apply in_or_app. by left.
Qed.

Lemma StronglySorted_filter (R : A -> A -> Prop) (f : A -> bool) (l : list A) :
  StronglySorted R l -> StronglySorted R (List.filter f l).
Proof.
  induction 1 as [|a l Hl IH Ha]; simpl; [constructor|].
  destruct (f a); [|exact IH].
  constructor; [exact IH|].
  apply List.Forall_forall. intros x Hx. apply filter_In in Hx.
  destruct Hx as [Hx _]. revert x Hx. by apply List.Forall_forall.
Qed.

Lemma filter_all (f : A -> bool) (l : list A) :
  (forall x, In x l -> f x = true) -> List.filter f l = l.
Proof.
  induction l as [|a l IH]; simpl; intros H; [reflexivity|].
  rewrite (H a) by (by left). rewrite IH; [reflexivity|]. intros x Hx. apply H. by right.
Qed.

Lemma filter_none (f : A -> bool) (l : list A) :
  (forall x, In x l -> f x = false) -> List.filter f l = [].
Proof.
  induction l as [|a l IH]; simpl; intros H; [reflexivity|].
  rewrite (H a) by (by left). apply IH. intros x Hx. apply H. by right.
Qed.

End ListFacts.
End ListFacts.

Module RateLimitFacts.
Import RateLimit.

Lemma gt_spec (t w : Q) : gt t w = true <-> (w < t)%Q.
Proof.
  unfold gt. rewrite negb_true_iff.
  destruct (Qle_bool t w) eqn:E.
  - apply Qle_bool_iff in E. split; [discriminate | intros H; lra ].
  - split; [intros _ | reflexivity].
    apply Qnot_le_lt. intros H. apply Qle_bool_iff in H. congruence.
Qed.

Lemma get_insert_eq (m : requests) k l : get (<[k := l]> m) k = l.
Proof. unfold get. by rewrite lookup_insert_eq. Qed.

Lemma get_insert_ne (m : requests) k k' l : k <> k' -> get (<[k := l]> m) k' = get m k'.
Proof. intros H. unfold get. by rewrite lookup_insert_ne. Qed.

(** The two outcomes of one call, in closed form. *)
Lemma rate_limiter_unfold cfg now cid (st : requests) :
  rate_limiter cfg now cid st =
    if (MAX_REQUESTS cfg <=? Z.of_nat (length (in_window cfg now (get st cid))))%Z
    then (false, <[cid := in_window cfg now (get st cid)]> st)
    else (true, <[cid := in_window cfg now (get st cid) ++ [now]]> st).
Proof.
  unfold rate_limiter, in_window. cbv zeta. rewrite get_insert_eq.
  destruct (_ <=? _)%Z; [reflexivity|].
  by rewrite insert_insert_eq.
Qed.

End RateLimitFacts.

Module RateLimitTheorems.
Import RateLimit ListFacts RateLimitFacts.

Lemma get_empty cid : get ∅ cid = [].
Proof. unfold get. by rewrite lookup_empty. Qed.

Lemma in_window_In cfg now l t :
  In t (in_window cfg now l) <-> In t l /\ (now - WINDOW_SECONDS cfg < t)%Q.
Proof. unfold in_window. rewrite filter_In, gt_spec. reflexivity. Qed.

(** A record whose entries are all inside the window is left as it is. *)
Lemma in_window_all cfg now l :
  Forall (fun t => (now - WINDOW_SECONDS cfg < t)%Q) l -> in_window cfg now l = l.
Proof.
  unfold in_window. induction 1 as [|t l Ht _ IH]; simpl; [reflexivity|].
  apply gt_spec in Ht. rewrite Ht. by rewrite IH.
Qed.

Lemma run_nil cfg (st : requests) : run cfg [] st = ([], st).
Proof. reflexivity. Qed.

Lemma run_cons cfg now cid rest (st : requests) :
  run cfg ((now, cid) :: rest) st =
    (fst (rate_limiter cfg now cid st)
       :: fst (run cfg rest (snd (rate_limiter cfg now cid st))),
     snd (run cfg rest (snd (rate_limiter cfg now cid st)))).
Proof.
  simpl. destruct (rate_limiter cfg now cid st) as [b st1]. simpl.
  by destruct (run cfg rest st1).
Qed.

(** C1: one call of [rate_limiter] drops exactly the timestamps of the client
    that are [<= window_start] (the retained ones are those with
    [t > window_start], in their order); when at least [MAX_REQUESTS] remain it
    returns [false] and does not append [now]; otherwise it appends [now] and
    returns [true].  With [MAX_REQUESTS = 3] and [WINDOW_SECONDS = 60], four
    calls of one client at the same instant give [true, true, true, false]. *)
Theorem rate_limiter_spec :
  (forall cfg now cid (st : requests),
     let window_start := (now - WINDOW_SECONDS cfg)%Q in
     let kept := List.filter (fun t => gt t window_start) (get st cid) in
     (forall t, In t kept <-> In t (get st cid) /\ (window_start < t)%Q) /\
     (forall t, (t <= window_start)%Q -> ~ In t kept) /\
     ((MAX_REQUESTS cfg <= Z.of_nat (length kept))%Z ->
        rate_limiter cfg now cid st = (false, <[cid := kept]> st)) /\
     ((Z.of_nat (length kept) < MAX_REQUESTS cfg)%Z ->
        rate_limiter cfg now cid st = (true, <[cid := kept ++ [now]]> st)))
  /\
  (forall now : Q,
     fst (run scenario_3_60 [(now, "x"); (now, "x"); (now, "x"); (now, "x")] ∅)
     = [true; true; true; false]).
Proof.
  split.
  - intros cfg now cid st window_start kept.
    assert (Hk : kept = in_window cfg now (get st cid)) by reflexivity.
    split; [|split; [|split]].
    + intros t. rewrite Hk. apply in_window_In.
    + intros t Hle Hin. rewrite Hk in Hin. apply in_window_In in Hin.
      destruct Hin as [_ Hlt]. unfold window_start in Hle. lra.
    + intros Hge. rewrite rate_limiter_unfold, <- Hk.
      apply Z.leb_le in Hge. by rewrite Hge.
    + intros Hlt. rewrite rate_limiter_unfold, <- Hk.
      apply Z.leb_gt in Hlt. by rewrite Hlt.
  - intros now.
    assert (Hw : forall l, Forall (fun t => t = now) l ->
                   in_window scenario_3_60 now l = l).
    { intros l Hl. apply in_window_all. eapply Forall_impl; [exact Hl|].
      intros t ->. simpl. lra. }
    assert (Hstep : forall (st : requests) l, get st "x" = l ->
              Forall (fun t => t = now) l -> (length l < 3)%nat ->
              rate_limiter scenario_3_60 now "x" st = (true, <["x" := l ++ [now]]> st)).
    { intros st l Hg Hl Hlen. rewrite rate_limiter_unfold, Hg, Hw by done.
      destruct (Z.leb_spec (MAX_REQUESTS scenario_3_60) (Z.of_nat (length l)));
        [simpl in *; lia | done]. }
    rewrite run_cons, (Hstep _ [] (get_empty _)) by (simpl; auto).
    cbn [fst snd app].
    rewrite run_cons, (Hstep _ [now] (get_insert_eq _ _ _)) by (simpl; auto).
    cbn [fst snd app].
    rewrite run_cons, (Hstep _ [now; now] (get_insert_eq _ _ _)) by (simpl; auto).
    cbn [fst snd app].
    rewrite run_cons, rate_limiter_unfold, get_insert_eq, Hw by auto.
    reflexivity.
Qed.

(** The two outcomes of C1 at concrete records: a full window rejects, a
    window with room admits. *)
Lemma rate_limiter_spec_witness :
  rate_limiter scenario_2_10 2 "x" {[ "x" := [0%Q; 1%Q] ]}
    = (false, <["x" := [0%Q; 1%Q]]> {[ "x" := [0%Q; 1%Q] ]}) /\
  rate_limiter scenario_2_10 12 "x" {[ "x" := [0%Q; 1%Q] ]}
    = (true, <["x" := [12%Q]]> {[ "x" := [0%Q; 1%Q] ]}) /\
  ~ In 2%Q (List.filter (fun t => gt t (12 - WINDOW_SECONDS scenario_2_10)%Q)
              (get {[ "y" := [2%Q; 3%Q] ]} "y")).
Proof.
  split; [|split].
  - etransitivity.
    + apply (proj1 (proj2 (proj2 (proj1 rate_limiter_spec scenario_2_10 2%Q "x"
               {[ "x" := [0%Q; 1%Q] ]})))).
      vm_compute. discriminate.
    + vm_compute. reflexivity.
  - etransitivity.
    + apply (proj2 (proj2 (proj2 (proj1 rate_limiter_spec scenario_2_10 12%Q "x"
               {[ "x" := [0%Q; 1%Q] ]})))).
      vm_compute. reflexivity.
    + vm_compute. reflexivity.
  - apply (proj1 (proj2 (proj1 rate_limiter_spec scenario_2_10 12%Q "y"
             {[ "y" := [2%Q; 3%Q] ]})) 2%Q).
    vm_compute. discriminate.
Defined.

(** C7: window expiry.  With [MAX_REQUESTS = 2] and [WINDOW_SECONDS = 10],
    the calls of one client at clock times 0 and 1 are admitted, the call at 2
    is rejected, the call at 12 is admitted, and the record of the client is
    then exactly [[12]]. *)
Theorem window_expiry_scenario (client_id : string) :
  let calls := [(0%Q, client_id); (1%Q, client_id); (2%Q, client_id);
                (12%Q, client_id)] in
  fst (run scenario_2_10 calls ∅) = [true; true; false; true] /\
  get (snd (run scenario_2_10 calls ∅)) client_id = [12%Q].
Proof.
  cbv zeta.
  rewrite run_cons, rate_limiter_unfold, get_empty.
  vm_compute (in_window _ _ _). vm_compute (_ <=? _)%Z. cbn [fst snd app].
  rewrite run_cons, rate_limiter_unfold, get_insert_eq.
  vm_compute (in_window _ _ _). vm_compute (_ <=? _)%Z. cbn [fst snd app].
  rewrite run_cons, rate_limiter_unfold, get_insert_eq.
  vm_compute (in_window _ _ _). vm_compute (_ <=? _)%Z. cbn [fst snd app].
  rewrite run_cons, rate_limiter_unfold, get_insert_eq.
  vm_compute (in_window _ _ _). vm_compute (_ <=? _)%Z. cbn [fst snd app].
  rewrite run_nil. cbn [fst snd]. by rewrite get_insert_eq.
Qed.

(** C9: a rejected call still rewrites the record of its client: the record
    becomes exactly the previous timestamps that are inside the window, in
    their order, and [now] is not added; such a call can change the state; and
    no call, admitted or not, touches the record of another client. *)
Theorem rejected_call_effect :
  (forall cfg now cid (st st' : requests),
     rate_limiter cfg now cid st = (false, st') ->
     get st' cid =
       List.filter (fun t => gt t (now - WINDOW_SECONDS cfg)%Q) (get st cid)) /\
  (exists cfg now cid (st st' : requests),
     rate_limiter cfg now cid st = (false, st') /\ get st' cid <> get st cid) /\
  (forall cfg now cid b (st st' : requests) other,
     rate_limiter cfg now cid st = (b, st') ->
     other <> cid -> st' !! other = st !! other).
Proof.
  split; [|split].
  - intros cfg now cid st st'. rewrite rate_limiter_unfold.
    destruct (_ <=? _)%Z; [|discriminate].
    intros [= <-]. by rewrite get_insert_eq.
  - exists {| MAX_REQUESTS := 1; WINDOW_SECONDS := 10 |}, 12%Q, "x",
      {[ "x" := [0%Q; 5%Q] ]}, {[ "x" := [5%Q] ]}.
    split; vm_compute; [reflexivity | discriminate].
  - intros cfg now cid b st st' other. rewrite rate_limiter_unfold.
    destruct (_ <=? _)%Z; intros [= <- <-] Hne; by rewrite lookup_insert_ne.
Qed.

Lemma rejected_call_effect_witness :
  get (<["x" := [0%Q; 1%Q]]> ({[ "x" := [0%Q; 1%Q]; "y" := [1%Q] ]} : requests)) "x"
    = List.filter (fun t => gt t (2 - WINDOW_SECONDS scenario_2_10)%Q)
        (get {[ "x" := [0%Q; 1%Q]; "y" := [1%Q] ]} "x") /\
  (<["x" := [0%Q; 1%Q]]> ({[ "x" := [0%Q; 1%Q]; "y" := [1%Q] ]} : requests)) !! "y"
    = ({[ "x" := [0%Q; 1%Q]; "y" := [1%Q] ]} : requests) !! "y".
Proof.
  split.
  - apply (proj1 rejected_call_effect scenario_2_10 2%Q "x").
    vm_compute. reflexivity.
  - apply (proj2 (proj2 rejected_call_effect) scenario_2_10 2%Q "x" false).
    + vm_compute. reflexivity.
    + discriminate.
Defined.

(** *** The invariant of the records *)

Section Invariant.
Variable cfg : config.
Hypothesis MAX_nonneg : (0 <= MAX_REQUESTS cfg)%Z.

Lemma Forall_filter_keep (P : Q -> Prop) (f : Q -> bool) l :
  Forall P l -> Forall P (List.filter f l).
Proof.
  intros H. apply List.Forall_forall. intros x Hx. apply filter_In in Hx.
  destruct Hx as [Hx _]. revert x Hx. by apply List.Forall_forall.
Qed.

Lemma StronglySorted_snoc l x :
  StronglySorted Qle l -> Forall (fun t => (t <= x)%Q) l ->
  StronglySorted Qle (l ++ [x]).
Proof.
  induction 1 as [|a l Hl IH Ha]; intros Hx; simpl.
  - repeat constructor.
  - inversion Hx as [|? ? Hax Hlx]; subst.
    constructor; [by apply IH|].
    apply Forall_app. split; [exact Ha | by constructor].
Qed.

Lemma in_window_bound now l :
  Forall (fun t => (now - WINDOW_SECONDS cfg < t)%Q) (in_window cfg now l).
Proof.
  apply List.Forall_forall. intros t Ht. by apply in_window_In in Ht as [_ Ht].
Qed.

Lemma inv_mono lo hi st : (lo <= hi)%Q -> inv cfg lo st -> inv cfg hi st.
Proof.
  intros Hle H c. destruct (H c) as (Hs & Hb & Hn).
  split; [exact Hs|split; [|exact Hn]].
  eapply Forall_impl; [exact Hb|]. simpl. intros t Ht. lra.
Qed.

Lemma inv_empty hi : inv cfg hi ∅.
Proof. intros c. rewrite get_empty. simpl. repeat constructor. exact MAX_nonneg. Qed.

(** One call keeps the invariant, provided the clock did not go back. *)
Lemma inv_step lo now cid st :
  inv cfg lo st -> (lo <= now)%Q -> inv cfg now (snd (rate_limiter cfg now cid st)).
Proof.
  intros H Hle c. apply (inv_mono _ _ _ Hle) in H.
  destruct (H cid) as (Hs & Hb & Hn).
  assert (Hs' := StronglySorted_filter Qle
                   (fun t => gt t (now - WINDOW_SECONDS cfg)%Q) _ Hs).
  assert (Hb' := Forall_filter_keep (fun t => (t <= now)%Q)
                   (fun t => gt t (now - WINDOW_SECONDS cfg)%Q) _ Hb).
  fold (in_window cfg now (get st cid)) in Hs', Hb'.
  assert (Hlen : (length (in_window cfg now (get st cid)) <= length (get st cid))%nat)
    by apply List.filter_length_le.
  rewrite rate_limiter_unfold.
  destruct (Z.leb_spec (MAX_REQUESTS cfg)
              (Z.of_nat (length (in_window cfg now (get st cid))))) as [Hfull|Hroom];
    cbn [snd]; destruct (decide (cid = c)) as [<-|Hne].
  - rewrite get_insert_eq. split; [done|split; [done|lia]].
  - rewrite get_insert_ne by done. apply H.
  - rewrite get_insert_eq. split; [by apply StronglySorted_snoc|split].
    + apply Forall_app. split; [done|]. constructor; [lra|constructor].
    + rewrite length_app. simpl. lia.
  - rewrite get_insert_ne by done. apply H.
Qed.

Lemma last_cons (a d : Q) l : List.last (a :: l) d = List.last l a.
Proof.
  revert a d. induction l as [|b l IH]; intros a d; [done|].
  change (List.last (a :: b :: l) d) with (List.last (b :: l) d).
  by rewrite (IH b d), (IH b a).
Qed.

(** A run of calls with clock readings that never decrease keeps it. *)
Lemma inv_run calls : forall lo st,
  inv cfg lo st -> StronglySorted Qle (lo :: map fst calls) ->
  inv cfg (List.last (map fst calls) lo) (snd (run cfg calls st)).
Proof.
  induction calls as [|[now cid] rest IH]; intros lo st H Hs; [exact H|].
  rewrite run_cons. cbn [snd map fst]. rewrite last_cons.
  inversion Hs as [|? ? Hrest Hlo]; subst.
  inversion Hlo as [|? ? Hle _]; subst.
  apply IH; [by apply inv_step with lo | exact Hrest].
Qed.

End Invariant.

Lemma run_app cfg pre post (st : requests) :
  run cfg (pre ++ post) st =
    (fst (run cfg pre st) ++ fst (run cfg post (snd (run cfg pre st))),
     snd (run cfg post (snd (run cfg pre st)))).
Proof.
  revert st. induction pre as [|[now cid] pre IH]; intros st.
  - simpl. by destruct (run cfg post st).
  - change (((now, cid) :: pre) ++ post) with ((now, cid) :: (pre ++ post)).
    rewrite (run_cons _ _ _ (pre ++ post)), (run_cons _ _ _ pre), IH.
    reflexivity.
Qed.

Lemma StronglySorted_app_head (l1 l2 : list Q) x :
  StronglySorted Qle (l1 ++ x :: l2) ->
  StronglySorted Qle l1 /\ Forall (fun y => (y <= x)%Q) l1.
Proof.
  induction l1 as [|a l1 IH]; simpl; intros H; [by repeat constructor|].
  inversion H as [|? ? Hs Ha]; subst. destruct (IH Hs) as [Hs1 Hb].
  apply Forall_app in Ha as [Ha1 Ha2]. inversion Ha2; subst.
  split; constructor; done.
Qed.

Lemma last_Forall (P : Q -> Prop) l d : Forall P l -> P d -> P (List.last l d).
Proof.
  intros Hl. revert d. induction Hl as [|a l Ha _ IH]; intros d Hd; [done|].
  rewrite last_cons. by apply IH.
Qed.

#[local] Instance Qle_transitive : Transitive Qle := Qle_trans.

(** C2: along any sequence of calls whose clock readings never decrease,
    started from the empty dictionary, after each call every record is
    ascending and has at most [MAX_REQUESTS] entries, every entry of the record
    of the calling client is newer than [now - WINDOW_SECONDS], and the call is
    admitted exactly when fewer than [MAX_REQUESTS] of the timestamps recorded
    for the client are newer than [now - WINDOW_SECONDS].  The constants are
    as the specification requires them: [MAX_REQUESTS] not negative and
    [WINDOW_SECONDS] positive. *)
Theorem rate_limiter_invariant cfg (pre post : list (Q * string)) now cid :
  (0 <= MAX_REQUESTS cfg)%Z -> (0 < WINDOW_SECONDS cfg)%Q ->
  Sorted Qle (map fst (pre ++ (now, cid) :: post)) ->
  let st := snd (run cfg pre ∅) in
  let admitted := fst (rate_limiter cfg now cid st) in
  let st' := snd (rate_limiter cfg now cid st) in
  (forall c, Sorted Qle (get st' c) /\
             (Z.of_nat (length (get st' c)) <= MAX_REQUESTS cfg)%Z) /\
  Forall (fun t => (now - WINDOW_SECONDS cfg < t)%Q) (get st' cid) /\
  (admitted = true <->
   (Z.of_nat (length (List.filter (fun t => gt t (now - WINDOW_SECONDS cfg)%Q)
                        (get st cid))) < MAX_REQUESTS cfg)%Z).
Proof.
  intros HM HW Hsorted st admitted st'.
  apply Sorted_StronglySorted in Hsorted; [|exact Qle_transitive].
  rewrite map_app in Hsorted. cbn [map fst] in Hsorted.
  apply StronglySorted_app_head in Hsorted as [Hpre Hnow].
  set (lo := hd now (map fst pre)).
  assert (Hlo : StronglySorted Qle (lo :: map fst pre)).
  { unfold lo. destruct (map fst pre) as [|a l]; simpl; [repeat constructor|].
    constructor; [done|]. inversion Hpre; subst. constructor; [lra|done]. }
  assert (Hlast : (List.last (map fst pre) lo <= now)%Q).
  { apply (last_Forall (fun t => (t <= now)%Q)); [done|].
    unfold lo. destruct Hnow; simpl; [lra|done]. }
  assert (Hinv : inv cfg now st').
  { apply inv_step with (List.last (map fst pre) lo); [|done].
    apply inv_run; [by apply inv_empty|done]. }
  split; [|split].
  - intros c. destruct (Hinv c) as (Hs & _ & Hn).
    split; [by apply StronglySorted_Sorted|done].
  - unfold st'. rewrite rate_limiter_unfold.
    destruct (_ <=? _)%Z; cbn [snd]; rewrite get_insert_eq.
    + apply in_window_bound.
    + apply Forall_app. split; [apply in_window_bound|].
      constructor; [lra|constructor].
  - unfold admitted. rewrite rate_limiter_unfold.
    fold (in_window cfg now (get st cid)).
    destruct (Z.leb_spec (MAX_REQUESTS cfg)
                (Z.of_nat (length (in_window cfg now (get st cid)))));
      cbn [fst]; split; intros; first [done | lia].
Qed.

(** C2 at the window-expiry sequence: the check at clock 12 after the calls at
    0, 1 and 2. *)
Lemma rate_limiter_invariant_witness :
  let st := snd (run scenario_2_10 [(0%Q, "x"); (1%Q, "x"); (2%Q, "x")] ∅) in
  let st' := snd (rate_limiter scenario_2_10 12 "x" st) in
  (forall c, Sorted Qle (get st' c) /\ (Z.of_nat (length (get st' c)) <= 2)%Z) /\
  Forall (fun t => (12 - 10 < t)%Q) (get st' "x") /\
  (fst (rate_limiter scenario_2_10 12 "x" st) = true <->
   (Z.of_nat (length (List.filter (fun t => gt t (12 - 10)%Q) (get st "x"))) < 2)%Z).
Proof.
  apply (rate_limiter_invariant scenario_2_10
           [(0%Q, "x"); (1%Q, "x"); (2%Q, "x")] [] 12%Q "x").
  - simpl. lia.
  - reflexivity.
  - simpl. repeat constructor; discriminate.
Defined.

End RateLimitTheorems.

(** ** Facts about the SQL clauses and about the distance *)

Module BusStopsFacts.
Import BusStops ListFacts.

Section ClauseFacts.
Context {A : Type}.
Variable leb : A -> A -> bool.

Lemma In_insert_by x y (l : list A) : In y (insert_by leb x l) <-> y = x \/ In y l.
Proof.
  induction l as [|z l IH]; simpl.
  - intuition.
  - destruct (leb x z); simpl; [intuition|]. rewrite IH. intuition.
Qed.

Lemma In_ORDER_BY y (l : list A) : In y (ORDER_BY leb l) <-> In y l.
Proof.
  induction l as [|z l IH]; simpl; [reflexivity|].
  rewrite In_insert_by, IH. intuition.
Qed.

Lemma length_insert_by x (l : list A) : length (insert_by leb x l) = S (length l).
Proof.
  induction l as [|z l IH]; simpl; [reflexivity|].
  destruct (leb x z); simpl; [reflexivity|]. by rewrite IH.
Qed.

Lemma length_ORDER_BY (l : list A) : length (ORDER_BY leb l) = length l.
Proof.
  induction l as [|z l IH]; simpl; [reflexivity|].
  by rewrite length_insert_by, IH.
Qed.

Lemma In_LIMIT n y (l : list A) : In y (LIMIT n l) -> In y l.
Proof.
  unfold LIMIT. intros H. rewrite <- (firstn_skipn n l). apply in_or_app. by left.
Qed.

Hypothesis leb_total : forall a b, leb a b = false -> leb b a = true.
Hypothesis leb_trans : forall a b c, leb a b = true -> leb b c = true -> leb a c = true.

Lemma insert_by_sorted x (l : list A) :
  StronglySorted (fun a b => leb a b = true) l ->
  StronglySorted (fun a b => leb a b = true) (insert_by leb x l).
Proof.
  induction 1 as [|z l Hl IH Hz]; simpl; [repeat constructor|].
  destruct (leb x z) eqn:E.
  - constructor; [by constructor|].
    constructor; [exact E|].
    eapply Forall_impl; [exact Hz|]. simpl. intros b Hb. by apply leb_trans with z.
  - constructor; [exact IH|].
    apply List.Forall_forall. intros b Hb. apply In_insert_by in Hb as [->|Hb].
    + by apply leb_total.
    + revert b Hb. by apply List.Forall_forall.
Qed.

Lemma ORDER_BY_sorted (l : list A) :
  StronglySorted (fun a b => leb a b = true) (ORDER_BY leb l).
Proof.
  induction l as [|z l IH]; simpl; [constructor|]. by apply insert_by_sorted.
Qed.

(** A filter that a smaller row passes whenever a larger one does. *)
Variable keep : A -> bool.
Hypothesis keep_down : forall a b, leb a b = true -> keep b = true -> keep a = true.

(** On an ordered list such a filter keeps a prefix, so it does not matter
    whether the list is cut before or after it. *)
Lemma filter_LIMIT_comm n (l : list A) :
  StronglySorted (fun a b => leb a b = true) l ->
  List.filter keep (LIMIT n l) = LIMIT n (List.filter keep l).
Proof.
  unfold LIMIT. intros H. revert n.
  induction H as [|a l Hl IH Ha]; intros n; [by rewrite !firstn_nil|].
  destruct n as [|n]; [reflexivity|]. simpl.
  destruct (keep a) eqn:Ea; simpl; [by rewrite IH|].
  assert (Hnone : forall x, In x l -> keep x = false).
  { intros x Hx. destruct (keep x) eqn:Ex; [|reflexivity].
    rewrite List.Forall_forall in Ha. rewrite (keep_down a x (Ha x Hx) Ex) in Ea.
    discriminate. }
  rewrite (filter_none keep l Hnone), firstn_nil.
  apply filter_none. intros x Hx. apply Hnone.
  rewrite <- (firstn_skipn n l). apply in_or_app. by left.
Qed.

(** If a row beyond the cut passes the filter, the cut list is full and all
    of it passes. *)
Lemma filter_LIMIT_full n (l : list A) x :
  StronglySorted (fun a b => leb a b = true) l ->
  In x (OFFSET n l) -> keep x = true ->
  List.filter keep (LIMIT n l) = LIMIT n l /\ length (LIMIT n l) = n.
Proof.
  unfold LIMIT, OFFSET. intros H Hx Hk. split.
  - apply filter_all. intros y Hy.
    apply keep_down with x; [|exact Hk].
    rewrite <- (firstn_skipn n l) in H. clear -H Hx Hy.
    induction (firstn n l) as [|z pre IH]; [destruct Hy|].
    simpl in H. inversion H as [|? ? Hs Hz]; subst. destruct Hy as [->|Hy].
    + rewrite List.Forall_forall in Hz. apply Hz, in_or_app. by right.
    + by apply IH.
  - apply firstn_length_le.
    destruct (Nat.le_gt_cases n (length l)) as [Hle|Hgt]; [exact Hle|].
    rewrite skipn_all2 in Hx by lia. destruct Hx.
Qed.

End ClauseFacts.

Lemma Rleb_true x y : Rleb x y = true <-> (x <= y)%R.
Proof. unfold Rleb. destruct (Rle_dec x y); split; intros; first [done | lra]. Qed.

Lemma Rleb_false x y : Rleb x y = false <-> (y < x)%R.
Proof. unfold Rleb. destruct (Rle_dec x y); split; intros; first [done | lra]. Qed.

Lemma within_spec radius st : within radius st = true <-> (distance_m st <= radius)%R.
Proof. apply Rleb_true. Qed.

Lemma asin_nonneg x : (0 <= x)%R -> (0 <= asin x)%R.
Proof.
  intros Hx. unfold asin. pose proof PI_RGT_0.
  destruct (Rle_dec x (-1)); [lra|]. destruct (Rle_dec 1 x); [lra|].
  assert (Hs : (0 < sqrt (1 - x²))%R).
  { apply sqrt_lt_R0. unfold Rsqr. nra. }
  assert (Hq : (0 <= x / sqrt (1 - x²))%R).
  { apply Rmult_le_pos; [done|]. left. by apply Rinv_0_lt_compat. }
  destruct Hq as [Hq| <-]; [|rewrite atan_0; lra].
  apply atan_increasing in Hq. rewrite atan_0 in Hq. lra.
Qed.

(** The computed distance is never negative. *)
Lemma distance_m_sql_nonneg p1 p2 p3 s : (0 <= distance_m_sql p1 p2 p3 s)%R.
Proof.
  unfold distance_m_sql, ASIN, SQRT.
  apply Rmult_le_pos; [lra|]. apply asin_nonneg, sqrt_pos.
Qed.

Lemma In_nearby_sql p1 p2 p3 limit stops st :
  In st (nearby_sql (p1, p2, p3, limit) stops) ->
  exists s, In s stops /\ st = nearby_row p1 p2 p3 s.
Proof.
  unfold nearby_sql, nearby_ordered. intros H.
  apply In_LIMIT, In_ORDER_BY, List.in_map_iff in H as (s & <- & Hs). eauto.
Qed.

Lemma nearby_sql_nonneg p1 p2 p3 limit stops st :
  In st (nearby_sql (p1, p2, p3, limit) stops) -> (0 <= distance_m st)%R.
Proof.
  intros (s & _ & ->)%In_nearby_sql. apply distance_m_sql_nonneg.
Qed.

(** *** The distance *)

Lemma PI_bounds : (3.14159 < PI < 3.14160)%R.
Proof.
  pose proof (PI_2_3_7_ineq 3) as [Hlo Hhi].
  unfold sum_f_R0, tg_alt, PI_2_3_7_tg, Ratan_seq in Hlo, Hhi.
  simpl in Hlo, Hhi.
  split; lra.
Qed.

Lemma RADIANS_deg2rad x : RADIANS x = deg2rad x.
Proof. unfold RADIANS, deg2rad. lra. Qed.

(** The expression of the query is the formula of the specification. *)
Lemma distance_m_sql_haversine lat lon s :
  distance_m_sql lat lat lon s = haversine lat lon (latitude s) (longitude s).
Proof.
  unfold distance_m_sql, haversine, POWER, SIN, COS, SQRT, ASIN. cbv zeta.
  rewrite !RADIANS_deg2rad, !Rsqr_pow2.
  replace (deg2rad (latitude s - lat)) with (deg2rad (latitude s) - deg2rad lat)%R
    by (unfold deg2rad; lra).
  replace (deg2rad (longitude s - lon)) with (deg2rad (longitude s) - deg2rad lon)%R
    by (unfold deg2rad; lra).
  reflexivity.
Qed.

Lemma distance_m_sql_same s :
  distance_m_sql (latitude s) (latitude s) (longitude s) s = 0%R.
Proof.
  unfold distance_m_sql, POWER, SIN, COS, SQRT, ASIN, RADIANS.
  replace ((latitude s - latitude s) * PI / 180 / 2)%R with 0%R by lra.
  replace ((longitude s - longitude s) * PI / 180 / 2)%R with 0%R by lra.
  rewrite sin_0.
  replace (0 ^ 2 + cos (latitude s * PI / 180) * cos (latitude s * PI / 180) * 0 ^ 2)%R
    with 0%R by lra.
  rewrite sqrt_0, asin_0. lra.
Qed.

Lemma sin_half_sym a b :
  (sin ((a - b) * PI / 180 / 2) ^ 2 = sin ((b - a) * PI / 180 / 2) ^ 2)%R.
Proof.
  replace ((b - a) * PI / 180 / 2)%R with (- ((a - b) * PI / 180 / 2))%R by lra.
  rewrite sin_neg. lra.
Qed.

Lemma distance_m_sql_sym a b :
  distance_m_sql (latitude a) (latitude a) (longitude a) b =
  distance_m_sql (latitude b) (latitude b) (longitude b) a.
Proof.
  unfold distance_m_sql, POWER, SIN, COS, SQRT, ASIN, RADIANS.
  rewrite (sin_half_sym (latitude b) (latitude a)),
          (sin_half_sym (longitude b) (longitude a)).
  rewrite (Rmult_comm (cos (latitude a * PI / 180))). reflexivity.
Qed.

(** One degree of latitude is [R * pi / 180] metres. *)
Lemma distance_m_sql_one_degree a b :
  latitude b = (latitude a + 1)%R -> longitude b = longitude a ->
  distance_m_sql (latitude a) (latitude a) (longitude a) b = (6371000 * PI / 180)%R.
Proof.
  intros Hlat Hlon.
  unfold distance_m_sql, POWER, SIN, COS, SQRT, ASIN, RADIANS.
  pose proof PI_bounds as [Hlo Hhi]. rewrite Hlat, Hlon.
  replace ((latitude a + 1 - latitude a) * PI / 180 / 2)%R with (PI / 360)%R by lra.
  replace ((longitude a - longitude a) * PI / 180 / 2)%R with 0%R by lra.
  rewrite sin_0.
  replace (sin (PI / 360) ^ 2 +
           cos (latitude a * PI / 180) * cos ((latitude a + 1) * PI / 180) * 0 ^ 2)%R
    with (sin (PI / 360) ^ 2)%R by lra.
  rewrite sqrt_pow2 by (apply sin_ge_0; lra).
  rewrite asin_sin by lra. lra.
Qed.

(** The number under the square root lies between 0 and 1, whatever the
    two points are: [SQRT] and [ASIN] are only used where they are defined. *)
Lemma haversine_argument_bounds (p1 p2 dl : R) :
  (0 <= (sin ((p2 - p1) / 2))² + cos p1 * cos p2 * (sin (dl / 2))² <= 1)%R.
Proof.
  set (x := ((p2 - p1) / 2)%R). set (t := ((sin (dl / 2))²)%R).
  assert (Ht : (0 <= t <= 1)%R).
  { unfold t. split; [apply Rle_0_sqr|]. pose proof (sin2_cos2 (dl / 2)).
    pose proof (Rle_0_sqr (cos (dl / 2))). lra. }
  assert (Hs : (0 <= (sin x)² <= 1)%R).
  { split; [apply Rle_0_sqr|]. pose proof (sin2_cos2 x).
    pose proof (Rle_0_sqr (cos x)). lra. }
  assert (Hc1 : cos (p2 - p1) = (1 - 2 * (sin x)²)%R).
  { replace (p2 - p1)%R with (2 * x)%R by (unfold x; lra).
    rewrite cos_2a_sin. unfold Rsqr. lra. }
  assert (Hc : (cos p1 * cos p2 = (cos (p2 - p1) + cos (p2 + p1)) / 2)%R).
  { rewrite cos_minus, cos_plus. lra. }
  pose proof (COS_bound (p2 + p1)) as [Hlo Hhi].
  rewrite Hc, Hc1. split; nra.
Qed.

Lemma distance_m_sql_argument lat lon s :
  (0 <= POWER (SIN (RADIANS (latitude s - lat) / 2)) 2 +
        COS (RADIANS lat) * COS (RADIANS (latitude s)) *
        POWER (SIN (RADIANS (longitude s - lon) / 2)) 2 <= 1)%R.
Proof.
  unfold POWER, SIN, COS. rewrite <- !Rsqr_pow2.
  replace (RADIANS (latitude s - lat)) with (RADIANS (latitude s) - RADIANS lat)%R
    by (unfold RADIANS; lra).
  apply haversine_argument_bounds.
Qed.

Lemma In_nearby_ordered p1 p2 p3 stops st :
  In st (nearby_ordered p1 p2 p3 stops) <->
  exists s, In s stops /\ st = nearby_row p1 p2 p3 s.
Proof.
  unfold nearby_ordered. rewrite In_ORDER_BY, List.in_map_iff.
  split; intros (s & H1 & H2); exists s; intuition.
Qed.

(** *** The order of the distance query *)

Lemma by_distance_m_spec a b :
  by_distance_m a b = true <-> (distance_m a <= distance_m b)%R.
Proof. apply Rleb_true. Qed.

Lemma by_distance_m_total a b : by_distance_m a b = false -> by_distance_m b a = true.
Proof. unfold by_distance_m. rewrite Rleb_false, Rleb_true. lra. Qed.

Lemma by_distance_m_trans a b c :
  by_distance_m a b = true -> by_distance_m b c = true -> by_distance_m a c = true.
Proof. rewrite !by_distance_m_spec. lra. Qed.

Lemma within_down radius a b :
  by_distance_m a b = true -> within radius b = true -> within radius a = true.
Proof. rewrite by_distance_m_spec, !within_spec. lra. Qed.

Lemma nearby_ordered_sorted p1 p2 p3 stops :
  StronglySorted (fun a b => by_distance_m a b = true) (nearby_ordered p1 p2 p3 stops).
Proof.
  apply ORDER_BY_sorted; [exact by_distance_m_total | exact by_distance_m_trans].
Qed.

Lemma StronglySorted_by_distance l :
  StronglySorted (fun a b => by_distance_m a b = true) l ->
  StronglySorted (fun a b => (distance_m a <= distance_m b)%R) l.
Proof.
  induction 1 as [|a l Hl IH Ha]; constructor; [exact IH|].
  eapply Forall_impl; [exact Ha|]. intros b. apply by_distance_m_spec.
Qed.

(** *** Patterns *)

Lemma append_nil_l s : "" +:+ s = s.
Proof. reflexivity. Qed.

Lemma append_cons c a b : String c a +:+ b = String c (a +:+ b).
Proof. reflexivity. Qed.

Lemma append_nil_r s : s +:+ "" = s.
Proof. induction s as [|c s IH]; [reflexivity|]. change (String c (s +:+ "") = String c s). by rewrite IH. Qed.

Lemma append_assoc (a b c : string) : (a +:+ b) +:+ c = a +:+ b +:+ c.
Proof.
  induction a as [|x a IH]; [reflexivity|].
  change (String x ((a +:+ b) +:+ c) = String x (a +:+ b +:+ c)). by rewrite IH.
Qed.

Lemma like_nil s : like "" s = true <-> s = "".
Proof. destruct s; simpl; split; intros; first [done | discriminate]. Qed.

Lemma like_percent pat s :
  like (String "%" pat) s =
    like pat s || match s with
                  | EmptyString => false
                  | String _ s' => like (String "%" pat) s'
                  end.
Proof. destruct s; reflexivity. Qed.

Lemma like_char c pat s :
  Ascii.eqb c "%" = false ->
  like (String c pat) s =
    match s with
    | EmptyString => false
    | String d s' => (Ascii.eqb c "_" || Ascii.eqb c d) && like pat s'
    end.
Proof. intros H. simpl. by rewrite H. Qed.

Lemma like_percent_iff pat s :
  like (String "%" pat) s = true <->
  exists pre post, s = pre +:+ post /\ like pat post = true.
Proof.
  induction s as [|d s IH]; rewrite like_percent, orb_true_iff.
  - split.
    + intros [H|H]; [|discriminate]. by exists "", "".
    + intros (pre & post & Hs & H). left.
      destruct pre; [|discriminate]. rewrite append_nil_l in Hs. by subst.
  - rewrite IH. split.
    + intros [H|(pre & post & -> & H)].
      * by exists "", (String d s).
      * by exists (String d pre), post.
    + intros ([|e pre] & post & Hs & H).
      * left. rewrite append_nil_l in Hs. by subst.
      * right. rewrite append_cons in Hs. injection Hs as -> ->. eauto.
Qed.

(** A pattern that ends in [%] matches the strings with a prefix that the
    pattern without it matches. *)
Lemma like_app_percent p : forall s,
  like (p +:+ "%") s = true <->
  exists mid post, s = mid +:+ post /\ like p mid = true.
Proof.
  induction p as [|c p IH]; intros s.
  - rewrite append_nil_l, like_percent_iff. split.
    + intros _. by exists "", s.
    + intros _. exists s, "". by rewrite append_nil_r.
  - rewrite append_cons. destruct (Ascii.eqb c "%") eqn:Ec.
    + apply Ascii.eqb_eq in Ec as ->. rewrite like_percent_iff. split.
      * intros (pre & rest & -> & (mid & post & -> & H)%IH).
        exists (pre +:+ mid), post. split; [by rewrite append_assoc|].
        apply like_percent_iff. eauto.
      * intros (mid & post & -> & (pre & mid' & -> & H)%like_percent_iff).
        exists pre, (mid' +:+ post). split; [by rewrite append_assoc|].
        apply IH. eauto.
    + rewrite like_char by done. destruct s as [|d s].
      * split; [discriminate|]. intros (mid & post & Hs & H).
        rewrite like_char in H by done. destruct mid; [discriminate|discriminate].
      * rewrite andb_true_iff, IH. split.
        -- intros (Hc & mid & post & -> & H). exists (String d mid), post.
           split; [reflexivity|]. rewrite like_char by done. by rewrite Hc, H.
        -- intros (mid & post & Hs & H). rewrite like_char in H by done.
           destruct mid as [|e mid]; [discriminate|]. rewrite append_cons in Hs.
           injection Hs as -> ->. apply andb_true_iff in H as [Hc H]. eauto.
Qed.

(** [%p%] matches the strings that have a part that [p] matches. *)
Lemma like_contains p s :
  like ("%" +:+ p +:+ "%") s = true <->
  exists pre mid post, s = pre +:+ mid +:+ post /\ like p mid = true.
Proof.
  change ("%" +:+ p +:+ "%") with (String "%" (p +:+ "%")).
  rewrite like_percent_iff. split.
  - intros (pre & rest & -> & (mid & post & -> & H)%like_app_percent). eauto.
  - intros (pre & mid & post & -> & H). exists pre, (mid +:+ post).
    split; [reflexivity|]. apply like_app_percent. eauto.
Qed.

(** A pattern without wildcards matches itself and nothing else. *)
Lemma like_literal p : forall s, no_wildcard p = true -> (like p s = true <-> s = p).
Proof.
  induction p as [|c p IH]; intros s Hp; [apply like_nil|].
  simpl in Hp. apply andb_true_iff in Hp as [Hc Hp]. unfold plain in Hc.
  apply andb_true_iff in Hc as [H1 H2]. apply negb_true_iff in H1, H2.
  rewrite like_char by done. destruct s as [|d s]; [split; discriminate|].
  rewrite H2, orb_false_l, andb_true_iff, (IH s Hp). split.
  - intros [->%Ascii.eqb_eq ->]. reflexivity.
  - intros [= -> ->]. by rewrite Ascii.eqb_refl.
Qed.

Lemma like_contains_literal p s :
  no_wildcard p = true ->
  (like ("%" +:+ p +:+ "%") s = true <-> occurs_in p s).
Proof.
  intros Hp. rewrite like_contains. unfold occurs_in. split.
  - intros (pre & mid & post & -> & H). apply (like_literal p mid Hp) in H as ->. eauto.
  - intros (pre & post & ->). exists pre, p, post. split; [reflexivity|].
    by apply like_literal.
Qed.

Lemma lower_upper_ascii c : lower_ascii (upper_ascii c) = lower_ascii c.
Proof. destruct c as [[] [] [] [] [] [] [] []]; reflexivity. Qed.

Lemma lower_upper s : lower (upper s) = lower s.
Proof. induction s as [|c s IH]; simpl; [reflexivity|]. by rewrite lower_upper_ascii, IH. Qed.

Lemma plain_lower_ascii c : plain (lower_ascii c) = plain c.
Proof. destruct c as [[] [] [] [] [] [] [] []]; reflexivity. Qed.

Lemma no_wildcard_lower s : no_wildcard (lower s) = no_wildcard s.
Proof. induction s as [|c s IH]; simpl; [reflexivity|]. by rewrite plain_lower_ascii, IH. Qed.

Lemma lower_app a b : lower (a +:+ b) = lower a +:+ lower b.
Proof.
  induction a as [|c a IH]; [reflexivity|].
  change (String (lower_ascii c) (lower (a +:+ b)) =
          String (lower_ascii c) (lower a +:+ lower b)). by rewrite IH.
Qed.

(** A row matches when a part of its name, without regard to case, is
    matched by the text read as a [LIKE] pattern. *)
Lemma name_matches_spec name s :
  name_matches name s = true <->
  exists pre mid post,
    lower (stop_name s) = pre +:+ mid +:+ post /\ like (lower name) mid = true.
Proof.
  unfold name_matches, ILIKE, UPPER.
  rewrite !lower_app, !lower_upper. apply like_contains.
Qed.

Lemma name_matches_literal name s :
  no_wildcard name = true ->
  (name_matches name s = true <-> occurs_in (lower name) (lower (stop_name s))).
Proof.
  intros Hn. unfold name_matches, ILIKE, UPPER.
  rewrite !lower_app, !lower_upper. apply like_contains_literal.
  by rewrite no_wildcard_lower.
Qed.

(** [like] reads a pattern the way [wild] says. *)
Lemma like_wild p : forall s, like p s = true <-> wild p s.
Proof.
  induction p as [|c p IH]; intros s.
  - rewrite like_nil. split; [intros ->; constructor|by inversion 1].
  - destruct (Ascii.eqb c "%") eqn:Ec.
    + apply Ascii.eqb_eq in Ec as ->. rewrite like_percent_iff. split.
      * intros (pre & post & -> & H%IH). by constructor.
      * inversion 1 as [|p' run s' Hw| |c' p' s' Hc Hw]; subst; [|discriminate Hc].
        exists run, s'. split; [reflexivity|]. by apply IH.
    + rewrite like_char by done. destruct s as [|d s].
      * split; [discriminate|]. inversion 1; subst.
        by rewrite Ascii.eqb_refl in Ec.
      * rewrite andb_true_iff, orb_true_iff, IH. split.
        -- intros [[->%Ascii.eqb_eq | ->%Ascii.eqb_eq] Hw]; [by constructor|].
           destruct (Ascii.eqb d "_") eqn:Eu.
           ++ apply Ascii.eqb_eq in Eu as ->. by constructor.
           ++ apply wild_char; [|exact Hw]. unfold plain. by rewrite Ec, Eu.
        -- inversion 1; subst.
           ++ by rewrite Ascii.eqb_refl in Ec.
           ++ split; [by left|done].
           ++ split; [right; apply Ascii.eqb_refl|done].
Qed.


(** The test of the reference query is [matches_ci]. *)
Lemma name_matches_ci text s :
  name_matches text s = true <-> matches_ci text (stop_name s).
Proof.
  rewrite name_matches_spec. unfold matches_ci, occurs_in. split.
  - intros (pre & mid & post & E & H). exists mid. split; [eauto|by apply like_wild].
  - intros (part & (pre & post & E) & H). exists pre, part, post.
    split; [exact E|by apply like_wild].
Qed.





(** *** The reference query *)

Lemma by_stop_code_total a b : by_stop_code a b = false -> by_stop_code b a = true.
Proof. unfold by_stop_code. rewrite Z.leb_gt, Z.leb_le. lia. Qed.

Lemma by_stop_code_trans a b c :
  by_stop_code a b = true -> by_stop_code b c = true -> by_stop_code a c = true.
Proof. unfold by_stop_code. rewrite !Z.leb_le. lia. Qed.

(** The first row of an ordered list is a least one. *)
Lemma ORDER_BY_head {A} (leb : A -> A -> bool) (l : list A) x rest :
  (forall a b, leb a b = false -> leb b a = true) ->
  (forall a b c, leb a b = true -> leb b c = true -> leb a c = true) ->
  ORDER_BY leb l = x :: rest ->
  In x l /\ forall y, In y l -> leb x y = true.
Proof.
  intros Htot Htrans E.
  pose proof (ORDER_BY_sorted leb Htot Htrans l) as Hs. rewrite E in Hs.
  assert (Hx : In x l) by (apply (In_ORDER_BY leb); rewrite E; by left).
  split; [exact Hx|]. intros y Hy. apply (In_ORDER_BY leb) in Hy. rewrite E in Hy.
  inversion Hs as [|? ? _ Hall]; subst. destruct Hy as [<-|Hy].
  - destruct (leb x x) eqn:Exx; [reflexivity|]. by apply Htot in Exx as Exx'; congruence.
  - rewrite List.Forall_forall in Hall. by apply Hall.
Qed.


Lemma ref_sql_cons pattern stops ref rest :
  ref_sql pattern stops = ref :: rest ->
  exists s, In s stops /\ ILIKE (UPPER (stop_name s)) pattern = true /\
    ref = ref_row s /\
    forall s', In s' stops -> ILIKE (UPPER (stop_name s')) pattern = true ->
               (stop_code s <= stop_code s')%Z.
Proof.
  unfold ref_sql, WHERE, LIMIT.
  set (m := fun s => ILIKE (UPPER (stop_name s)) pattern).
  destruct (ORDER_BY by_stop_code (List.filter m stops)) as [|x more] eqn:E;
    [discriminate|].
  simpl. intros [= <- <-].
  destruct (ORDER_BY_head _ _ _ _ by_stop_code_total by_stop_code_trans E) as [Hx Hmin].
  apply filter_In in Hx as [Hx Hm]. exists x. repeat split; [done..|].
  intros s' Hs' Hm'. apply Z.leb_le. apply (Hmin s'). apply filter_In. by split.
Qed.

(** *** The distance query on the two example rows *)

Lemma distance_albert_from_albert : distance_m albert_from_albert = 0%R.
Proof. apply (distance_m_sql_same albert). Qed.

Lemma distance_queen_from_albert :
  distance_m queen_from_albert = (6371000 * PI / 180)%R.
Proof. apply (distance_m_sql_one_degree albert queen); reflexivity. Qed.

Lemma nearby_ordered_sample :
  nearby_ordered (latitude albert) (latitude albert) (longitude albert) sample_stops
  = [albert_from_albert; queen_from_albert].
Proof.
  unfold nearby_ordered, sample_stops, ORDER_BY. cbn [map fold_right insert_by].
  fold albert_from_albert queen_from_albert.
  assert (H : by_distance_m albert_from_albert queen_from_albert = true).
  { apply by_distance_m_spec.
    rewrite distance_albert_from_albert, distance_queen_from_albert.
    pose proof PI_bounds. lra. }
  by rewrite H.
Qed.

Lemma within_sample radius :
  (0 <= radius < 111194)%R ->
  List.filter (within radius) [albert_from_albert; queen_from_albert]
  = [albert_from_albert].
Proof.
  intros Hr. simpl.
  assert (Ha : within radius albert_from_albert = true).
  { apply within_spec. rewrite distance_albert_from_albert. lra. }
  assert (Hq : within radius queen_from_albert = false).
  { apply Rleb_false. rewrite distance_queen_from_albert. pose proof PI_bounds. lra. }
  by rewrite Ha, Hq.
Qed.

Lemma within_sample_negative radius :
  (radius < 0)%R ->
  List.filter (within radius) [albert_from_albert; queen_from_albert] = [].
Proof.
  intros Hr. simpl.
  assert (Ha : within radius albert_from_albert = false).
  { apply Rleb_false. rewrite distance_albert_from_albert. lra. }
  assert (Hq : within radius queen_from_albert = false).
  { apply Rleb_false. rewrite distance_queen_from_albert. pose proof PI_bounds. lra. }
  by rewrite Ha, Hq.
Qed.

End BusStopsFacts.

Module BusStopsTheorems.
Import BusStops ListFacts BusStopsFacts.

(** On the rows that are there, both nearby operations succeed with the
    filtered rows of the distance query. *)
Lemma get_nearby_by_coords_Some stops lat lon radius limit :
  get_nearby_by_coords (Some stops) lat lon radius limit =
    inr {| reference_coords := (lat, lon);
           bc_radius_m := radius;
           bc_count := length (List.filter (within radius)
                                 (nearby_sql (lat, lat, lon, limit) stops));
           bc_results := List.filter (within radius)
                           (nearby_sql (lat, lat, lon, limit) stops) |}.
Proof. reflexivity. Qed.

Lemma get_nearby_by_coords_inr db lat lon radius limit resp :
  get_nearby_by_coords db lat lon radius limit = inr resp ->
  exists stops, db = Some stops /\
    bc_results resp = List.filter (within radius)
                        (nearby_sql (lat, lat, lon, limit) stops) /\
    bc_count resp = length (bc_results resp) /\
    reference_coords resp = (lat, lon).
Proof.
  destruct db as [stops|]; [|discriminate].
  rewrite get_nearby_by_coords_Some. intros [= <-]. by exists stops.
Qed.

Lemma get_nearby_by_name_inr db name radius limit resp :
  get_nearby_by_name db name radius limit = inr resp ->
  exists stops, db = Some stops /\
    hd_error (ref_sql ("%" +:+ upper name +:+ "%") stops) = Some (reference_stop resp) /\
    bn_results resp =
      List.filter (within radius)
        (nearby_sql (stop_lat (reference_stop resp), stop_lat (reference_stop resp),
                     stop_lon (reference_stop resp), limit) stops) /\
    bn_count resp = length (bn_results resp).
Proof.
  destruct db as [stops|]; [|discriminate].
  unfold get_nearby_by_name, query_stops.
  destruct (ref_sql _ stops) as [|ref rest] eqn:E; [discriminate|].
  cbv zeta. intros H. injection H as <-. exists stops. by rewrite E.
Qed.

Lemma radius_filter_holds radius p1 p2 p3 limit stops :
  radius_filter_law radius (nearby_sql (p1, p2, p3, limit) stops)
    (List.filter (within radius) (nearby_sql (p1, p2, p3, limit) stops)).
Proof.
  split; [reflexivity|]. split; [|split].
  - intros st Hst. rewrite filter_In, within_spec. tauto.
  - intros -> st Hst. rewrite filter_In, within_spec.
    pose proof (nearby_sql_nonneg _ _ _ _ _ _ Hst). split.
    + intros [_ H0]. lra.
    + intros ->. split; [done|lra].
  - intros Hneg.
    destruct (List.filter _ _) as [|st rest] eqn:E; [reflexivity|].
    assert (Hin : In st (List.filter (within radius)
                           (nearby_sql (p1, p2, p3, limit) stops)))
      by (rewrite E; by left).
    apply filter_In in Hin as [Hst Hw]. apply within_spec in Hw.
    pose proof (nearby_sql_nonneg _ _ _ _ _ _ Hst). lra.
Qed.

(** C3: in both nearby operations a row of the distance query is kept exactly
    when its [distance_m] is [<= radius_m]; with [radius_m = 0] exactly the
    rows at distance 0 are kept; with [radius_m < 0] none is kept. *)
Theorem radius_filter_inclusive :
  (forall db name radius limit resp,
     get_nearby_by_name db name radius limit = inr resp ->
     exists stops, db = Some stops /\
       radius_filter_law radius
         (nearby_sql (stop_lat (reference_stop resp), stop_lat (reference_stop resp),
                      stop_lon (reference_stop resp), limit) stops)
         (bn_results resp)) /\
  (forall db lat lon radius limit resp,
     get_nearby_by_coords db lat lon radius limit = inr resp ->
     exists stops, db = Some stops /\
       radius_filter_law radius (nearby_sql (lat, lat, lon, limit) stops)
         (bc_results resp)).
Proof.
  split.
  - intros db name radius limit resp (stops & -> & _ & Hres & _)%get_nearby_by_name_inr.
    exists stops. split; [reflexivity|]. rewrite Hres. apply radius_filter_holds.
  - intros db lat lon radius limit resp (stops & -> & Hres & _)%get_nearby_by_coords_inr.
    exists stops. split; [reflexivity|]. rewrite Hres. apply radius_filter_holds.
Qed.

(** C10: every successful response of [list_stops], [get_stop_by_code],
    [get_nearby_by_name] and [get_nearby_by_coords] carries in [count] the
    length of its [results]; for the nearby operations these are the rows left
    by the radius filter. *)
Theorem count_is_length :
  (forall db limit offset name resp,
     list_stops db limit offset name = inr resp ->
     count resp = length (results resp)) /\
  (forall db code resp,
     get_stop_by_code db code = inr resp ->
     count resp = length (results resp)) /\
  (forall db name radius limit resp,
     get_nearby_by_name db name radius limit = inr resp ->
     bn_count resp = length (bn_results resp) /\
     exists stops, db = Some stops /\
       bn_results resp =
         List.filter (within radius)
           (nearby_sql (stop_lat (reference_stop resp), stop_lat (reference_stop resp),
                        stop_lon (reference_stop resp), limit) stops)) /\
  (forall db lat lon radius limit resp,
     get_nearby_by_coords db lat lon radius limit = inr resp ->
     bc_count resp = length (bc_results resp) /\
     exists stops, db = Some stops /\
       bc_results resp =
         List.filter (within radius) (nearby_sql (lat, lat, lon, limit) stops)).
Proof.
  split; [|split; [|split]].
  - intros db limit offset name resp. unfold list_stops.
    destruct (query_stops _ db); [discriminate|]. by intros [= <-].
  - intros db code resp. unfold get_stop_by_code.
    destruct (query_stops _ db) as [|[|r rs]]; [discriminate..|]. by intros [= <-].
  - intros db name radius limit resp (stops & -> & _ & Hres & Hc)%get_nearby_by_name_inr.
    eauto.
  - intros db lat lon radius limit resp (stops & -> & Hres & Hc & _)%get_nearby_by_coords_inr.
    eauto.
Qed.

(** The operations on the two example rows. *)
Lemma get_nearby_by_name_albert radius limit :
  get_nearby_by_name (Some sample_stops) "albert" radius limit =
    inr {| reference_stop := ref_row albert;
           bn_radius_m := radius;
           bn_count :=
             length (List.filter (within radius)
                       (nearby_sql (latitude albert, latitude albert,
                                    longitude albert, limit) sample_stops));
           bn_results :=
             List.filter (within radius)
               (nearby_sql (latitude albert, latitude albert,
                            longitude albert, limit) sample_stops) |}.
Proof. reflexivity. Qed.

Lemma get_stop_by_code_queen :
  get_stop_by_code (Some sample_stops) 1315 =
    inr {| count := 1; results := [detail queen] |}.
Proof. reflexivity. Qed.

Lemma list_stops_sample :
  list_stops (Some sample_stops) 50 0 None =
    inr {| count := 2; results := [summary queen; summary albert] |}.
Proof. reflexivity. Qed.

Lemma nearby_sql_sample limit :
  nearby_sql (latitude albert, latitude albert, longitude albert, limit) sample_stops
  = LIMIT limit [albert_from_albert; queen_from_albert].
Proof. unfold nearby_sql. by rewrite nearby_ordered_sample. Qed.

Lemma get_nearby_by_name_sample radius limit results :
  List.filter (within radius) (LIMIT limit [albert_from_albert; queen_from_albert])
    = results ->
  get_nearby_by_name (Some sample_stops) "albert" radius limit =
    inr {| reference_stop := ref_row albert;
           bn_radius_m := radius;
           bn_count := length results;
           bn_results := results |}.
Proof.
  intros <-. rewrite get_nearby_by_name_albert. by rewrite nearby_sql_sample.
Qed.

Lemma get_nearby_by_coords_sample radius limit results :
  List.filter (within radius) (LIMIT limit [albert_from_albert; queen_from_albert])
    = results ->
  get_nearby_by_coords (Some sample_stops) (latitude albert) (longitude albert)
    radius limit =
    inr {| reference_coords := (latitude albert, longitude albert);
           bc_radius_m := radius;
           bc_count := length results;
           bc_results := results |}.
Proof.
  intros <-. rewrite get_nearby_by_coords_Some. by rewrite nearby_sql_sample.
Qed.

(** Radius 100 m around [albert]: of the two rows only [albert] itself. *)
Lemma get_nearby_by_name_albert_100 limit :
  (1 <= limit)%nat ->
  get_nearby_by_name (Some sample_stops) "albert" 100 limit =
    inr {| reference_stop := ref_row albert;
           bn_radius_m := 100;
           bn_count := 1;
           bn_results := [albert_from_albert] |}.
Proof.
  intros Hl. apply (get_nearby_by_name_sample 100 limit [albert_from_albert]).
  destruct limit as [|[|limit]]; [lia| |]; unfold LIMIT; cbn [firstn].
  - cbn [List.filter].
    assert (Ha : within 100 albert_from_albert = true).
    { apply within_spec. rewrite distance_albert_from_albert. lra. }
    by rewrite Ha.
  - rewrite firstn_nil. apply within_sample. lra.
Qed.

Lemma get_nearby_by_coords_albert radius results :
  List.filter (within radius) [albert_from_albert; queen_from_albert] = results ->
  get_nearby_by_coords (Some sample_stops) (latitude albert) (longitude albert)
    radius 20 =
    inr {| reference_coords := (latitude albert, longitude albert);
           bc_radius_m := radius;
           bc_count := length results;
           bc_results := results |}.
Proof. apply (get_nearby_by_coords_sample radius 20). Qed.

(** C3 on the two example rows: radius 100 by name, radius 0 and a negative
    radius by coordinates. *)
Lemma radius_filter_inclusive_witness :
  radius_filter_law 100 [albert_from_albert; queen_from_albert] [albert_from_albert] /\
  radius_filter_law 0 [albert_from_albert; queen_from_albert] [albert_from_albert] /\
  radius_filter_law (-1) [albert_from_albert; queen_from_albert] [].
Proof.
  split; [|split].
  - destruct (proj1 radius_filter_inclusive (Some sample_stops) "albert" 100%R 20%nat _
                (get_nearby_by_name_albert_100 20 ltac:(lia)))
      as (stops & [= <-] & H).
    cbn [reference_stop bn_results ref_row stop_lat stop_lon] in H.
    rewrite nearby_sql_sample in H. exact H.
  - destruct (proj2 radius_filter_inclusive (Some sample_stops) (latitude albert)
                (longitude albert) 0%R 20%nat _
                (get_nearby_by_coords_albert 0 [albert_from_albert]
                   (within_sample 0 ltac:(lra))))
      as (stops & [= <-] & H).
    cbn [bc_results] in H. rewrite nearby_sql_sample in H. exact H.
  - destruct (proj2 radius_filter_inclusive (Some sample_stops) (latitude albert)
                (longitude albert) (-1)%R 20%nat _
                (get_nearby_by_coords_albert (-1) []
                   (within_sample_negative (-1) ltac:(lra))))
      as (stops & [= <-] & H).
    cbn [bc_results] in H. rewrite nearby_sql_sample in H. exact H.
Defined.

(** C10 on the two example rows, one response of each operation. *)
Lemma count_is_length_witness :
  (2 = length [summary queen; summary albert])%nat /\
  (1 = length [detail queen])%nat /\
  (1 = length [albert_from_albert])%nat /\
  (0 = length (@nil NearbyStop))%nat.
Proof.
  split; [|split; [|split]].
  - apply (proj1 count_is_length (Some sample_stops) 50%nat 0%nat None _
             list_stops_sample).
  - apply (proj1 (proj2 count_is_length) (Some sample_stops) 1315%Z _
             get_stop_by_code_queen).
  - apply (proj1 (proj1 (proj2 (proj2 count_is_length)) (Some sample_stops) "albert"
                    100%R 20%nat _ (get_nearby_by_name_albert_100 20 ltac:(lia)))).
  - apply (proj1 (proj2 (proj2 (proj2 count_is_length)) (Some sample_stops)
                    (latitude albert) (longitude albert) (-1)%R 20%nat _
                    (get_nearby_by_coords_albert (-1) []
                       (within_sample_negative (-1) ltac:(lra))))).
Defined.

(** C5: in both nearby operations the [distance_m] of every row of the
    dataset, of every row the store returns and of every row of the response
    is the haversine distance [2 * 6371000 * asin(sqrt(sin²(Δlat/2) +
    cos(lat_ref) * cos(lat_row) * sin²(Δlon/2)))] of the row from the one
    reference point, with the angles in radians. *)
Theorem distance_is_haversine :
  (forall db name radius limit resp,
     get_nearby_by_name db name radius limit = inr resp ->
     let lat_ref := stop_lat (reference_stop resp) in
     let lon_ref := stop_lon (reference_stop resp) in
     exists stops, db = Some stops /\
       (forall s, In s stops ->
          distance_m (nearby_row lat_ref lat_ref lon_ref s) =
          haversine lat_ref lon_ref (latitude s) (longitude s)) /\
       (forall st, In st (nearby_sql (lat_ref, lat_ref, lon_ref, limit) stops) ->
          distance_m st = haversine lat_ref lon_ref (nb_latitude st) (nb_longitude st)) /\
       (forall st, In st (bn_results resp) ->
          distance_m st = haversine lat_ref lon_ref (nb_latitude st) (nb_longitude st))) /\
  (forall db lat lon radius limit resp,
     get_nearby_by_coords db lat lon radius limit = inr resp ->
     exists stops, db = Some stops /\
       (forall s, In s stops ->
          distance_m (nearby_row lat lat lon s) =
          haversine lat lon (latitude s) (longitude s)) /\
       (forall st, In st (nearby_sql (lat, lat, lon, limit) stops) ->
          distance_m st = haversine lat lon (nb_latitude st) (nb_longitude st)) /\
       (forall st, In st (bc_results resp) ->
          distance_m st = haversine lat lon (nb_latitude st) (nb_longitude st))).
Proof.
  assert (Hrow : forall lat lon limit stops st,
            In st (nearby_sql (lat, lat, lon, limit) stops) ->
            distance_m st = haversine lat lon (nb_latitude st) (nb_longitude st)).
  { intros lat lon limit stops st (s & _ & ->)%In_nearby_sql.
    apply distance_m_sql_haversine. }
  split.
  - intros db name radius limit resp (stops & -> & _ & Hres & _)%get_nearby_by_name_inr.
    cbv zeta. exists stops. split; [reflexivity|]. split; [|split].
    + intros s _. apply distance_m_sql_haversine.
    + apply Hrow.
    + intros st Hst. rewrite Hres in Hst. apply filter_In in Hst as [Hst _].
      by apply Hrow in Hst.
  - intros db lat lon radius limit resp (stops & -> & Hres & _)%get_nearby_by_coords_inr.
    exists stops. split; [reflexivity|]. split; [|split].
    + intros s _. apply distance_m_sql_haversine.
    + apply Hrow.
    + intros st Hst. rewrite Hres in Hst. apply filter_In in Hst as [Hst _].
      by apply Hrow in Hst.
Qed.

Lemma distance_is_haversine_witness :
  distance_m (nearby_row (latitude albert) (latitude albert) (longitude albert) queen)
    = haversine (latitude albert) (longitude albert) (latitude queen) (longitude queen)
  /\
  distance_m (nearby_row (latitude queen) (latitude queen) (longitude queen) albert)
    = haversine (latitude queen) (longitude queen) (latitude albert) (longitude albert).
Proof.
  split.
  - destruct (proj1 distance_is_haversine (Some sample_stops) "albert" 100%R 20%nat
                _ (get_nearby_by_name_albert _ _)) as (stops & [= <-] & H & _).
    apply H. right. by left.
  - destruct (proj2 distance_is_haversine (Some sample_stops) (latitude queen)
                (longitude queen) 100%R 20%nat
                _ (get_nearby_by_coords_Some _ _ _ _ _)) as (stops & [= <-] & H & _).
    apply H. by left.
Defined.

(** C8: the distance of the nearby queries is 0 from a point to itself, is
    the same when the reference point and the row are swapped, and is within
    1 m of 111195 m for two points one degree of latitude apart on one
    meridian. *)
Theorem haversine_sanity :
  (forall s, distance_m_sql (latitude s) (latitude s) (longitude s) s = 0%R) /\
  (forall a b,
     distance_m_sql (latitude a) (latitude a) (longitude a) b =
     distance_m_sql (latitude b) (latitude b) (longitude b) a) /\
  (forall a b,
     Rabs (latitude b - latitude a) = 1%R -> longitude b = longitude a ->
     (Rabs (distance_m_sql (latitude a) (latitude a) (longitude a) b - 111195) <= 1)%R).
Proof.
  split; [exact distance_m_sql_same|]. split; [exact distance_m_sql_sym|].
  assert (Hup : forall a b,
            latitude b = (latitude a + 1)%R -> longitude b = longitude a ->
            (Rabs (distance_m_sql (latitude a) (latitude a) (longitude a) b - 111195)
             <= 1)%R).
  { intros a b Hlat Hlon. rewrite (distance_m_sql_one_degree a b Hlat Hlon).
    pose proof PI_bounds as [Hlo Hhi]. apply Rabs_le. lra. }
  intros a b Hlat Hlon.
  destruct (Rcase_abs (latitude b - latitude a)) as [Hneg|Hpos].
  - rewrite (Rabs_left _ Hneg) in Hlat. rewrite distance_m_sql_sym.
    apply Hup; [lra | done].
  - rewrite (Rabs_right _ Hpos) in Hlat. apply Hup; [lra | done].
Qed.

Lemma haversine_sanity_witness :
  (Rabs (distance_m_sql (latitude albert) (latitude albert) (longitude albert) queen
         - 111195) <= 1)%R.
Proof.
  apply (proj2 (proj2 haversine_sanity) albert queen).
  - simpl. replace (-3684 / 100 + 1 - -3684 / 100)%R with 1%R by lra.
    apply Rabs_R1.
  - reflexivity.
Defined.

Lemma limit_then_filter_holds radius limit p1 p2 p3 stops :
  limit_then_filter_law radius limit (nearby_ordered p1 p2 p3 stops)
    (nearby_sql (p1, p2, p3, limit) stops)
    (List.filter (within radius) (nearby_sql (p1, p2, p3, limit) stops)).
Proof.
  pose proof (nearby_ordered_sorted p1 p2 p3 stops) as Hs.
  assert (Hcomm := filter_LIMIT_comm by_distance_m (within radius)
                     (within_down radius) limit _ Hs).
  unfold nearby_sql.
  split; [reflexivity|]. split; [|split; [|split; [|split; [|split; [|split]]]]].
  - by apply StronglySorted_by_distance, StronglySorted_firstn.
  - apply firstn_le_length.
  - reflexivity.
  - by apply StronglySorted_by_distance, StronglySorted_filter, StronglySorted_firstn.
  - rewrite Hcomm. apply firstn_le_length.
  - exact Hcomm.
  - rewrite Hcomm. unfold LIMIT. rewrite length_firstn. intros Hlen st Hst Hd.
    rewrite firstn_all2 by lia. apply filter_In. split; [exact Hst|].
    by apply within_spec.
Qed.

(** C6, as the code has it: in both nearby operations the store returns the
    first [limit] rows in ascending [distance_m] and the radius filter is
    applied after that cut; the response is ascending in distance and has at
    most [limit] rows; it is the first [limit] rows of the dataset within the
    radius, so when it is shorter than [limit] no row within the radius is
    left out. *)
Theorem limit_before_radius_filter :
  (forall db name radius limit resp,
     get_nearby_by_name db name radius limit = inr resp ->
     let lat_ref := stop_lat (reference_stop resp) in
     let lon_ref := stop_lon (reference_stop resp) in
     exists stops, db = Some stops /\
       limit_then_filter_law radius limit
         (nearby_ordered lat_ref lat_ref lon_ref stops)
         (nearby_sql (lat_ref, lat_ref, lon_ref, limit) stops)
         (bn_results resp)) /\
  (forall db lat lon radius limit resp,
     get_nearby_by_coords db lat lon radius limit = inr resp ->
     exists stops, db = Some stops /\
       limit_then_filter_law radius limit
         (nearby_ordered lat lat lon stops)
         (nearby_sql (lat, lat, lon, limit) stops)
         (bc_results resp)).
Proof.
  split.
  - intros db name radius limit resp (stops & -> & _ & Hres & _)%get_nearby_by_name_inr.
    cbv zeta. exists stops. split; [reflexivity|]. rewrite Hres.
    apply limit_then_filter_holds.
  - intros db lat lon radius limit resp (stops & -> & Hres & _)%get_nearby_by_coords_inr.
    exists stops. split; [reflexivity|]. rewrite Hres.
    apply limit_then_filter_holds.
Qed.

(** C6 on the two example rows: [limit = 1] by name, [limit = 20] by
    coordinates, radius 100 m. *)
Lemma limit_before_radius_filter_witness :
  limit_then_filter_law 100 1 [albert_from_albert; queen_from_albert]
    [albert_from_albert] [albert_from_albert] /\
  limit_then_filter_law 100 20 [albert_from_albert; queen_from_albert]
    [albert_from_albert; queen_from_albert] [albert_from_albert].
Proof.
  split.
  - destruct (proj1 limit_before_radius_filter (Some sample_stops) "albert" 100%R 1%nat
                _ (get_nearby_by_name_albert_100 1 ltac:(lia)))
      as (stops & [= <-] & H).
    cbn [reference_stop bn_results ref_row stop_lat stop_lon] in H.
    rewrite nearby_sql_sample, nearby_ordered_sample in H. exact H.
  - destruct (proj2 limit_before_radius_filter (Some sample_stops) (latitude albert)
                (longitude albert) 100%R 20%nat _
                (get_nearby_by_coords_albert 100 [albert_from_albert]
                   (within_sample 100 ltac:(lra))))
      as (stops & [= <-] & H).
    cbn [bc_results] in H.
    rewrite nearby_sql_sample, nearby_ordered_sample in H. exact H.
Defined.

(** C6, as the claim has it, does not hold: no response is shorter than
    [limit] while a row beyond the [limit] closest ones is within the radius. *)
Lemma under_return_impossible :
  ~ (exists stops name radius limit resp st,
       get_nearby_by_name (Some stops) name radius limit = inr resp /\
       (length (bn_results resp) < limit)%nat /\
       In st (OFFSET limit
                (nearby_ordered (stop_lat (reference_stop resp))
                   (stop_lat (reference_stop resp))
                   (stop_lon (reference_stop resp)) stops)) /\
       (distance_m st <= radius)%R) /\
  ~ (exists stops lat lon radius limit resp st,
       get_nearby_by_coords (Some stops) lat lon radius limit = inr resp /\
       (length (bc_results resp) < limit)%nat /\
       In st (OFFSET limit (nearby_ordered lat lat lon stops)) /\
       (distance_m st <= radius)%R).
Proof.
  assert (Hfull : forall radius limit p1 p2 p3 stops st,
            In st (OFFSET limit (nearby_ordered p1 p2 p3 stops)) ->
            (distance_m st <= radius)%R ->
            length (List.filter (within radius) (nearby_sql (p1, p2, p3, limit) stops))
            = limit).
  { intros radius limit p1 p2 p3 stops st Hst Hd. apply within_spec in Hd.
    destruct (filter_LIMIT_full by_distance_m (within radius) (within_down radius)
                limit _ st (nearby_ordered_sorted p1 p2 p3 stops) Hst Hd) as [Hf Hl].
    unfold nearby_sql. by rewrite Hf. }
  split.
  - intros (stops & name & radius & limit & resp & st & Hcall & Hlen & Hst & Hd).
    apply get_nearby_by_name_inr in Hcall as (stops' & [= <-] & _ & Hres & _).
    rewrite Hres, (Hfull _ _ _ _ _ _ _ Hst Hd) in Hlen. lia.
  - intros (stops & lat & lon & radius & limit & resp & st & Hcall & Hlen & Hst & Hd).
    apply get_nearby_by_coords_inr in Hcall as (stops' & [= <-] & Hres & _).
    rewrite Hres, (Hfull _ _ _ _ _ _ _ Hst Hd) in Hlen. lia.
Qed.






End BusStopsTheorems.

(** ** More about the rate limiter: what a run of calls guarantees *)

Module RateLimitExtra.
Import RateLimit RateLimitRuns ListFacts RateLimitFacts RateLimitTheorems.

Lemma answered_cons cfg now cid rest (st : requests) :
  answered cfg ((now, cid) :: rest) st =
    ((now, cid), fst (rate_limiter cfg now cid st))
      :: answered cfg rest (snd (rate_limiter cfg now cid st)).
Proof. unfold answered. by rewrite run_cons. Qed.

Lemma answered_app cfg pre post : forall st : requests,
  answered cfg (pre ++ post) st =
    answered cfg pre st ++ answered cfg post (snd (run cfg pre st)).
Proof.
  induction pre as [|[now cid] pre IH]; intros st; [reflexivity|].
  change (((now, cid) :: pre) ++ post) with ((now, cid) :: (pre ++ post)).
  rewrite !answered_cons, IH, run_cons. reflexivity.
Qed.

Lemma run_snoc_state cfg pre now cid (st : requests) :
  snd (run cfg (pre ++ [(now, cid)]) st) =
    snd (rate_limiter cfg now cid (snd (run cfg pre st))).
Proof. by rewrite run_app, run_cons. Qed.

Lemma admitted_snoc cfg pre now cid (st : requests) c :
  admitted cfg (pre ++ [(now, cid)]) st c =
    admitted cfg pre st c ++
    (if fst (rate_limiter cfg now cid (snd (run cfg pre st))) && String.eqb cid c
     then [now] else []).
Proof.
  unfold admitted. rewrite answered_app, List.filter_app, map_app, answered_cons.
  f_equal. cbn [List.filter fst snd answered run combine].
  by destruct (_ && _).
Qed.

Lemma admitted_In cfg calls (st : requests) c a :
  In a (admitted cfg calls st c) -> In a (map fst calls).
Proof.
  unfold admitted, answered. intros H.
  apply List.in_map_iff in H as ([[t cid] b] & <- & H).
  apply filter_In in H as [H _]. apply in_combine_l in H.
  apply List.in_map_iff. by exists (t, cid).
Qed.

(** *** One call looks at the record of its client only *)

Lemma rate_limiter_local cfg now cid (st1 st2 : requests) :
  get st1 cid = get st2 cid ->
  fst (rate_limiter cfg now cid st1) = fst (rate_limiter cfg now cid st2) /\
  get (snd (rate_limiter cfg now cid st1)) cid =
  get (snd (rate_limiter cfg now cid st2)) cid.
Proof.
  intros H. rewrite !rate_limiter_unfold, H.
  destruct (_ <=? _)%Z; cbn [fst snd]; by rewrite !get_insert_eq.
Qed.

Lemma rate_limiter_other cfg now cid (st : requests) c :
  c <> cid -> get (snd (rate_limiter cfg now cid st)) c = get st c.
Proof.
  intros H. rewrite rate_limiter_unfold.
  destruct (_ <=? _)%Z; cbn [snd]; by rewrite get_insert_ne.
Qed.

Lemma isolation_from cfg c calls : forall st1 st2 : requests,
  get st1 c = get st2 c ->
  outcomes cfg calls st1 c = fst (run cfg (calls_of c calls) st2) /\
  get (snd (run cfg calls st1)) c = get (snd (run cfg (calls_of c calls) st2)) c.
Proof.
  induction calls as [|[now cid] rest IH]; intros st1 st2 H; [by split|].
  unfold outcomes, calls_of in *. rewrite answered_cons, (run_cons _ _ _ rest).
  cbn [List.filter fst snd].
  destruct (String.eqb cid c) eqn:E.
  - apply String.eqb_eq in E as ->.
    destruct (rate_limiter_local cfg now c st1 st2 H) as [Hb Hg].
    destruct (IH _ _ Hg) as [IH1 IH2].
    rewrite run_cons. cbn [map fst snd]. by rewrite Hb, IH1, IH2.
  - apply String.eqb_neq in E. cbn [snd].
    apply IH. rewrite rate_limiter_other by done. exact H.
Qed.

(** X1: clients do not interfere.  What one client is answered along a run,
    and the record it ends with, are what it would get if the calls of every
    other client were left out. *)
Theorem client_isolation cfg calls c :
  outcomes cfg calls ∅ c = fst (run cfg (calls_of c calls) ∅) /\
  get (snd (run cfg calls ∅)) c = get (snd (run cfg (calls_of c calls) ∅)) c.
Proof. by apply isolation_from. Qed.

(** X2: the keys of [REQUESTS] after a run are the keys it had and the
    clients that called, admitted or not; no key is ever removed. *)
Theorem keys_after_run cfg calls (st : requests) :
  dom (snd (run cfg calls st)) = dom st ∪ list_to_set (map snd calls).
Proof.
  revert st. induction calls as [|[now cid] rest IH]; intros st.
  - simpl. by rewrite (right_id_L ∅ (∪)).
  - rewrite run_cons. cbn [snd map]. rewrite IH, rate_limiter_unfold, list_to_set_cons.
    destruct (_ <=? _)%Z; cbn [snd]; rewrite dom_insert_L;
      by rewrite (comm_L (∪) {[cid]} (dom st)), (assoc_L (∪)).
Qed.

(** *** The window *)

Lemma in_window_app cfg t l1 l2 :
  in_window cfg t (l1 ++ l2) = in_window cfg t l1 ++ in_window cfg t l2.
Proof. apply List.filter_app. Qed.

(** Pruning at an earlier clock reading loses nothing that a later check
    would keep. *)
Lemma in_window_in_window cfg now t l :
  (now <= t)%Q -> in_window cfg t (in_window cfg now l) = in_window cfg t l.
Proof.
  intros Hle. unfold in_window. induction l as [|a l IH]; [reflexivity|].
  cbn [List.filter]. destruct (gt a (now - WINDOW_SECONDS cfg)) eqn:E1.
  - cbn [List.filter]. by rewrite IH.
  - rewrite IH. destruct (gt a (t - WINDOW_SECONDS cfg)) eqn:E2; [|reflexivity].
    apply gt_spec in E2.
    assert (E3 : gt a (now - WINDOW_SECONDS cfg) = true) by (apply gt_spec; lra).
    congruence.
Qed.

(** At any time not before the last call, the timestamps of a record that
    are inside the window are the admitted calls of the client that are. *)
Lemma window_agrees cfg calls : forall c t,
  Forall (fun p => (fst p <= t)%Q) calls ->
  in_window cfg t (get (snd (run cfg calls ∅)) c) =
  in_window cfg t (admitted cfg calls ∅ c).
Proof.
  induction calls as [|[now cid] calls IH] using rev_ind; intros c t Ht.
  - by rewrite get_empty.
  - apply Forall_app in Ht as [Hcalls Hnow].
    inversion Hnow as [|? ? Hle _]; subst. cbn [fst] in Hle.
    rewrite run_snoc_state, admitted_snoc, in_window_app, <- (IH c t Hcalls).
    destruct (decide (c = cid)) as [->|Hne].
    + rewrite String.eqb_refl, andb_true_r, rate_limiter_unfold.
      destruct (_ <=? _)%Z; cbn [fst snd]; rewrite get_insert_eq.
      * rewrite in_window_in_window by done. cbn. by rewrite app_nil_r.
      * by rewrite in_window_app, in_window_in_window.
    + rewrite rate_limiter_other by done.
      assert (E : String.eqb cid c = false) by (apply String.eqb_neq; congruence).
      rewrite E, andb_false_r. cbn. by rewrite app_nil_r.
Qed.

(** After a run whose clock readings never decrease no record is longer than
    [MAX_REQUESTS]. *)
Lemma length_reached cfg calls c :
  (0 <= MAX_REQUESTS cfg)%Z -> Sorted Qle (map fst calls) ->
  (Z.of_nat (length (get (snd (run cfg calls ∅)) c)) <= MAX_REQUESTS cfg)%Z.
Proof.
  intros HM Hs. apply Sorted_StronglySorted in Hs; [|exact Qle_trans].
  set (lo := hd 0%Q (map fst calls)).
  assert (Hlo : StronglySorted Qle (lo :: map fst calls)).
  { unfold lo. destruct (map fst calls) as [|a l]; simpl; [repeat constructor|].
    constructor; [done|]. inversion Hs; subst. constructor; [lra|done]. }
  assert (Hinv : inv cfg (List.last (map fst calls) lo) (snd (run cfg calls ∅))).
  { apply inv_run; [by apply inv_empty|done]. }
  apply Hinv.
Qed.

Lemma Sorted_snoc_inv (l : list Q) x :
  Sorted Qle (l ++ [x]) -> Sorted Qle l /\ Forall (fun y => (y <= x)%Q) l.
Proof.
  intros H. apply Sorted_StronglySorted in H; [|exact Qle_trans].
  apply StronglySorted_app_head in H as [H1 H2].
  split; [by apply StronglySorted_Sorted|done].
Qed.

(** One more call keeps the bound on every window. *)
Lemma window_bound_snoc cfg calls now cid c t :
  (0 <= MAX_REQUESTS cfg)%Z -> Sorted Qle (map fst (calls ++ [(now, cid)])) ->
  (Z.of_nat (length (List.filter (in_window_at cfg t) (admitted cfg calls ∅ c)))
   <= MAX_REQUESTS cfg)%Z ->
  (Z.of_nat (length (List.filter (in_window_at cfg t)
                       (admitted cfg (calls ++ [(now, cid)]) ∅ c)))
   <= MAX_REQUESTS cfg)%Z.
Proof.
  intros HM Hs IH.
  pose proof Hs as Hs'. rewrite map_app in Hs'. cbn [map fst] in Hs'.
  apply Sorted_snoc_inv in Hs' as [Hcalls Hnow].
  destruct (Qle_bool now t) eqn:Et.
  - apply Qle_bool_iff in Et.
    assert (Hall : Forall (fun p => (fst p <= t)%Q) (calls ++ [(now, cid)])).
    { apply Forall_app. split; [|by repeat constructor].
      apply List.Forall_forall. intros p Hp.
      rewrite List.Forall_forall in Hnow.
      specialize (Hnow (fst p) (in_map fst _ _ Hp)). lra. }
    assert (Hf : List.filter (in_window_at cfg t)
                   (admitted cfg (calls ++ [(now, cid)]) ∅ c)
                 = in_window cfg t (admitted cfg (calls ++ [(now, cid)]) ∅ c)).
    { unfold in_window. apply List.filter_ext_in. intros a Ha.
      unfold in_window_at. apply admitted_In in Ha.
      apply List.in_map_iff in Ha as (p & <- & Hp).
      rewrite List.Forall_forall in Hall. specialize (Hall p Hp).
      apply Qle_bool_iff in Hall. by rewrite Hall, andb_true_r. }
    rewrite Hf, <- window_agrees by done.
    pose proof (length_reached cfg (calls ++ [(now, cid)]) c HM Hs) as Hlen.
    pose proof (List.filter_length_le
                  (fun a => gt a (t - WINDOW_SECONDS cfg)%Q)
                  (get (snd (run cfg (calls ++ [(now, cid)]) ∅)) c)) as Hle.
    unfold in_window. lia.
  - rewrite admitted_snoc, List.filter_app.
    assert (Hnil : List.filter (in_window_at cfg t)
                     (if fst (rate_limiter cfg now cid (snd (run cfg calls ∅)))
                         && String.eqb cid c then [now] else []) = []).
    { destruct (_ && _); [|reflexivity]. cbn [List.filter].
      unfold in_window_at. by rewrite Et, andb_false_r. }
    by rewrite Hnil, app_nil_r.
Qed.

(** X3: the limit holds over every window.  Along a run whose clock readings
    never decrease, for every client and every time [t], at most
    [MAX_REQUESTS] of the admitted calls of the client have their clock
    reading in [(t - WINDOW_SECONDS, t]]. *)
Theorem sliding_window_limit cfg calls c t :
  (0 <= MAX_REQUESTS cfg)%Z -> Sorted Qle (map fst calls) ->
  (Z.of_nat (length (List.filter (in_window_at cfg t) (admitted cfg calls ∅ c)))
   <= MAX_REQUESTS cfg)%Z.
Proof.
  intros HM. induction calls as [|[now cid] calls IH] using rev_ind; intros Hs.
  - simpl. lia.
  - apply window_bound_snoc; [exact HM|exact Hs|]. apply IH.
    rewrite map_app in Hs. by apply Sorted_snoc_inv in Hs as [Hs _].
Qed.

Lemma sliding_window_limit_witness :
  (Z.of_nat (length (List.filter (in_window_at scenario_2_10 11)
                       (admitted scenario_2_10
                          [(0%Q, "x"); (1%Q, "x"); (2%Q, "x"); (12%Q, "x")] ∅ "x")))
   <= 2)%Z.
Proof.
  apply (sliding_window_limit scenario_2_10
           [(0%Q, "x"); (1%Q, "x"); (2%Q, "x"); (12%Q, "x")] "x" 11%Q).
  - simpl. lia.
  - simpl. repeat constructor; discriminate.
Defined.

Lemma filter_same_length {A} (f : A -> bool) (l : list A) :
  length (List.filter f l) = length l -> List.filter f l = l.
Proof.
  induction l as [|a l IH]; [reflexivity|]. cbn [List.filter].
  destruct (f a); cbn [length]; intros H.
  - f_equal. apply IH. lia.
  - pose proof (List.filter_length_le f l). lia.
Qed.

(** X4: in a state reached by a run whose clock readings never decrease, a
    call that is rejected leaves every record as it was: the record of the
    client was full and wholly inside the window, so the pruning removes
    nothing. *)
Theorem rejected_call_keeps_records cfg calls now cid c :
  (0 <= MAX_REQUESTS cfg)%Z -> Sorted Qle (map fst calls) ->
  fst (rate_limiter cfg now cid (snd (run cfg calls ∅))) = false ->
  get (snd (rate_limiter cfg now cid (snd (run cfg calls ∅)))) c =
  get (snd (run cfg calls ∅)) c.
Proof.
  intros HM Hs. pose proof (length_reached cfg calls cid HM Hs) as Hlen.
  rewrite rate_limiter_unfold.
  destruct (Z.leb_spec (MAX_REQUESTS cfg)
              (Z.of_nat (length (in_window cfg now (get (snd (run cfg calls ∅)) cid)))))
    as [Hfull|Hroom]; [|discriminate].
  intros _. cbn [snd]. destruct (decide (c = cid)) as [->|Hne].
  - rewrite get_insert_eq. apply filter_same_length.
    pose proof (List.filter_length_le
                  (fun t => gt t (now - WINDOW_SECONDS cfg)%Q)
                  (get (snd (run cfg calls ∅)) cid)) as Hle.
    unfold in_window in Hfull. lia.
  - by rewrite get_insert_ne.
Qed.

Lemma rejected_call_keeps_records_witness :
  get (snd (rate_limiter scenario_2_10 2 "x"
              (snd (run scenario_2_10 [(0%Q, "x"); (1%Q, "x")] ∅)))) "x" =
  get (snd (run scenario_2_10 [(0%Q, "x"); (1%Q, "x")] ∅)) "x".
Proof.
  apply (rejected_call_keeps_records scenario_2_10 [(0%Q, "x"); (1%Q, "x")] 2%Q "x" "x").
  - simpl. lia.
  - simpl. repeat constructor; discriminate.
  - vm_compute. reflexivity.
Defined.

(** X5: a client without a record, or whose recorded timestamps have all
    left the window, is admitted when [MAX_REQUESTS] is at least 1, and its
    record becomes the one timestamp [now]. *)
Theorem expired_client_admitted cfg now cid (st : requests) :
  (1 <= MAX_REQUESTS cfg)%Z ->
  Forall (fun t => (t <= now - WINDOW_SECONDS cfg)%Q) (get st cid) ->
  rate_limiter cfg now cid st = (true, <[cid := [now]]> st).
Proof.
  intros HM Hold. rewrite rate_limiter_unfold.
  assert (Hnone : in_window cfg now (get st cid) = []).
  { unfold in_window. apply filter_none. intros t Ht.
    rewrite List.Forall_forall in Hold. specialize (Hold t Ht).
    destruct (gt t _) eqn:E; [|reflexivity]. apply gt_spec in E. lra. }
  rewrite Hnone. cbn [length app].
  destruct (Z.leb_spec (MAX_REQUESTS cfg) (Z.of_nat 0)); [simpl in *; lia|reflexivity].
Qed.

Lemma expired_client_admitted_witness :
  rate_limiter scenario_2_10 12 "x" {[ "x" := [0%Q; 1%Q] ]}
  = (true, <["x" := [12%Q]]> {[ "x" := [0%Q; 1%Q] ]}) /\
  rate_limiter default_config 5 "new" ∅ = (true, <["new" := [5%Q]]> ∅).
Proof.
  split.
  - apply (expired_client_admitted scenario_2_10 12%Q "x" {[ "x" := [0%Q; 1%Q] ]}).
    + simpl. lia.
    + unfold get. rewrite lookup_singleton_eq. repeat constructor; discriminate.
  - apply (expired_client_admitted default_config 5%Q "new" ∅).
    + simpl. lia.
    + rewrite get_empty. constructor.
Defined.

(** X6: no client stays locked out.  In a state reached by a run whose clock
    readings never decrease, a call is admitted as soon as the oldest
    timestamp of the record of its client has left the window. *)
Theorem admitted_after_oldest_expires cfg calls now cid t0 rest :
  (0 <= MAX_REQUESTS cfg)%Z -> Sorted Qle (map fst calls) ->
  get (snd (run cfg calls ∅)) cid = t0 :: rest ->
  (t0 <= now - WINDOW_SECONDS cfg)%Q ->
  fst (rate_limiter cfg now cid (snd (run cfg calls ∅))) = true.
Proof.
  intros HM Hs Hrec Hold.
  pose proof (length_reached cfg calls cid HM Hs) as Hlen.
  rewrite rate_limiter_unfold, Hrec. rewrite Hrec in Hlen.
  unfold in_window. cbn [List.filter].
  assert (E : gt t0 (now - WINDOW_SECONDS cfg) = false).
  { destruct (gt t0 _) eqn:E; [|reflexivity]. apply gt_spec in E. lra. }
  rewrite E.
  pose proof (List.filter_length_le
                (fun t => gt t (now - WINDOW_SECONDS cfg)%Q) rest) as Hle.
  cbn [length] in Hlen.
  destruct (Z.leb_spec (MAX_REQUESTS cfg)
              (Z.of_nat (length (List.filter
                                   (fun t => gt t (now - WINDOW_SECONDS cfg)%Q) rest))));
    [lia|reflexivity].
Qed.

Lemma admitted_after_oldest_expires_witness :
  fst (rate_limiter scenario_2_10 10 "x"
         (snd (run scenario_2_10 [(0%Q, "x"); (1%Q, "x")] ∅))) = true.
Proof.
  apply (admitted_after_oldest_expires scenario_2_10 [(0%Q, "x"); (1%Q, "x")]
           10%Q "x" 0%Q [1%Q]).
  - simpl. lia.
  - simpl. repeat constructor; discriminate.
  - vm_compute. reflexivity.
  - vm_compute. discriminate.
Defined.

End RateLimitExtra.

(** ** More about the controllers *)

Module BusStopsExtra.
Import BusStops ListFacts BusStopsFacts BusStopsTheorems.

(** *** [list_stops] *)

Lemma list_stops_inr db limit offset name resp :
  list_stops db limit offset name = inr resp ->
  exists stops, db = Some stops /\
    results resp = list_stops_sql name limit offset stops /\
    count resp = length (results resp).
Proof.
  destruct db as [stops|]; [|discriminate]. unfold list_stops, query_stops.
  intros [= <-]. by exists stops.
Qed.

Lemma firstn_plus {A} a b (l : list A) :
  firstn (a + b) l = (firstn a l ++ firstn b (skipn a l))%list.
Proof.
  revert l. induction a as [|a IH]; intros l; [reflexivity|].
  destruct l as [|x l]; [by rewrite skipn_nil, !firstn_nil|].
  cbn [Nat.add firstn skipn app]. by rewrite IH.
Qed.

(** X7: the pages of [list_stops] fit together.  With the same name filter,
    the page of [a] rows at [offset] followed by the page of [b] rows at
    [offset + a] is the page of [a + b] rows at [offset]: walking the pages
    neither skips nor repeats a row. *)
Theorem list_stops_pages db name offset a b r1 r2 r12 :
  list_stops db a offset name = inr r1 ->
  list_stops db b (offset + a) name = inr r2 ->
  list_stops db (a + b) offset name = inr r12 ->
  results r12 = (results r1 ++ results r2)%list /\
  count r12 = (count r1 + count r2)%nat.
Proof.
  intros (stops & -> & H1 & C1)%list_stops_inr
         (stops2 & [= <-] & H2 & C2)%list_stops_inr
         (stops3 & [= <-] & H12 & C12)%list_stops_inr.
  assert (Hres : results r12 = (results r1 ++ results r2)%list).
  { rewrite H1, H2, H12. unfold list_stops_sql, LIMIT, OFFSET.
    rewrite <- map_app. f_equal.
    rewrite firstn_plus, skipn_skipn. by rewrite (Nat.add_comm a offset). }
  split; [exact Hres|]. by rewrite C12, C1, C2, Hres, length_app.
Qed.

Lemma list_stops_pages_witness :
  [summary queen; summary albert] = ([summary queen] ++ [summary albert])%list /\
  (2 = 1 + 1)%nat.
Proof.
  apply (list_stops_pages (Some sample_stops) None 0 1 1
           {| count := 1; results := [summary queen] |}
           {| count := 1; results := [summary albert] |}
           {| count := 2; results := [summary queen; summary albert] |});
    reflexivity.
Defined.

Lemma by_stop_code_sorted_summary l :
  StronglySorted (fun a b => by_stop_code a b = true) l ->
  StronglySorted (fun a b => (ls_stop_code a <= ls_stop_code b)%Z) (map summary l).
Proof.
  induction 1 as [|a l Hl IH Ha]; simpl; constructor; [exact IH|].
  apply List.Forall_forall. intros r (s & <- & Hs)%List.in_map_iff.
  rewrite List.Forall_forall in Ha. apply Z.leb_le. exact (Ha s Hs).
Qed.

Lemma StronglySorted_skipn {A} (R : A -> A -> Prop) n (l : list A) :
  StronglySorted R l -> StronglySorted R (skipn n l).
Proof.
  intros H. revert n. induction H as [|a l Hl IH Ha]; intros [|n]; simpl.
  - constructor.
  - constructor.
  - by constructor.
  - apply IH.
Qed.

Lemma In_skipn {A} n (l : list A) x : In x (skipn n l) -> In x l.
Proof. intros H. rewrite <- (firstn_skipn n l). apply in_or_app. by right. Qed.

(** X8: a page that [list_stops] returns is in ascending [stop_code], holds
    at most [limit] rows, each a row of the file; when the [offset] is at or
    beyond the number of rows, the page it returns is empty and its count
    is 0. *)
Theorem list_stops_page db limit offset name resp :
  list_stops db limit offset name = inr resp ->
  (count resp <= limit)%nat /\
  StronglySorted (fun a b => (ls_stop_code a <= ls_stop_code b)%Z) (results resp) /\
  exists stops, db = Some stops /\
    (forall r, In r (results resp) -> exists s, In s stops /\ r = summary s) /\
    ((length stops <= offset)%nat -> results resp = [] /\ count resp = 0%nat).
Proof.
  intros (stops & -> & Hres & Hc)%list_stops_inr.
  set (selected := match truthy name with
                   | Some n => WHERE (fun s => ILIKE (stop_name s) ("%" +:+ n +:+ "%")) stops
                   | None => stops
                   end).
  assert (Hsql : results resp =
                 map summary (LIMIT limit (OFFSET offset (ORDER_BY by_stop_code selected))))
    by exact Hres.
  assert (Hsel : forall s, In s selected -> In s stops).
  { unfold selected, WHERE. destruct (truthy name) as [n|]; [|done].
    intros s Hs. by apply filter_In in Hs as [Hs _]. }
  assert (Hlen : (length selected <= length stops)%nat).
  { unfold selected, WHERE. destruct (truthy name) as [n|]; [|done].
    apply List.filter_length_le. }
  split; [|split].
  - rewrite Hc, Hsql, length_map. apply firstn_le_length.
  - rewrite Hsql. apply by_stop_code_sorted_summary.
    apply StronglySorted_firstn, StronglySorted_skipn, ORDER_BY_sorted;
      [exact by_stop_code_total | exact by_stop_code_trans].
  - exists stops. split; [reflexivity|]. split.
    + intros r Hr. rewrite Hsql in Hr.
      apply List.in_map_iff in Hr as (s & <- & Hs).
      apply In_LIMIT, In_skipn, In_ORDER_BY in Hs. eauto.
    + intros Hoff.
      assert (Hnil : results resp = []).
      { rewrite Hsql. unfold OFFSET.
        rewrite skipn_all2; [by unfold LIMIT; rewrite firstn_nil|].
        rewrite length_ORDER_BY. lia. }
      split; [exact Hnil|]. by rewrite Hc, Hnil.
Qed.

Lemma list_stops_page_witness :
  (0 <= 50)%nat /\
  StronglySorted (fun a b => (ls_stop_code a <= ls_stop_code b)%Z) [] /\
  exists stops, Some sample_stops = Some stops /\
    (forall r, In r (@nil StopSummary) -> exists s, In s stops /\ r = summary s) /\
    ((length stops <= 2)%nat -> @nil StopSummary = [] /\ 0%nat = 0%nat).
Proof.
  apply (list_stops_page (Some sample_stops) 50 2 None {| count := 0; results := [] |}).
  reflexivity.
Defined.

(** [ILIKE] does not see the [UPPER] and [upper()] of the reference query. *)
Lemma ILIKE_UPPER x n :
  ILIKE (UPPER x) ("%" +:+ upper n +:+ "%") = ILIKE x ("%" +:+ n +:+ "%").
Proof. unfold ILIKE, UPPER. by rewrite !lower_app, !lower_upper. Qed.

(** X9: the name filter of [list_stops], for ASCII names and text.  An empty
    [name] filters nothing, like no [name] at all.  Otherwise every row of a
    page that is returned is a row of the file that the text matches, by the
    test of [get_nearby_by_name]: a part of the name is spelled by the text
    read as a pattern, without regard to case; and a first page that is long
    enough for the whole file holds every row that the text matches. *)
Theorem list_stops_name_filter :
  (forall db limit offset,
     list_stops db limit offset (Some "") = list_stops db limit offset None) /\
  (forall stops limit offset n resp,
     n <> "" -> isascii n = true -> ascii_names stops = true ->
     list_stops (Some stops) limit offset (Some n) = inr resp ->
     (forall r, In r (results resp) ->
        exists s, In s stops /\ name_matches n s = true /\
          matches_ci n (stop_name s) /\ r = summary s) /\
     (offset = 0%nat -> (length stops <= limit)%nat ->
      forall s, In s stops -> matches_ci n (stop_name s) ->
                In (summary s) (results resp))).
Proof.
  split; [reflexivity|].
  intros stops limit offset n resp Hn _ _ (stops' & [= <-] & Hres & _)%list_stops_inr.
  assert (Hsql : results resp =
            map summary (LIMIT limit (OFFSET offset (ORDER_BY by_stop_code
              (WHERE (fun s => ILIKE (stop_name s) ("%" +:+ n +:+ "%")) stops))))).
  { rewrite Hres. unfold list_stops_sql. by destruct n. }
  split.
  - intros r Hr. rewrite Hsql in Hr. apply List.in_map_iff in Hr as (s & <- & Hs).
    apply In_LIMIT, In_skipn, In_ORDER_BY, filter_In in Hs as [Hs Hm].
    assert (Hnm : name_matches n s = true).
    { unfold name_matches. by rewrite ILIKE_UPPER. }
    exists s. split; [exact Hs|]. split; [exact Hnm|]. split; [|reflexivity].
    by apply name_matches_ci.
  - intros -> Hlen s Hs Hm%name_matches_ci. rewrite Hsql. apply in_map.
    unfold OFFSET, LIMIT. rewrite skipn_0, firstn_all2.
    + apply In_ORDER_BY, filter_In. split; [exact Hs|].
      unfold name_matches in Hm. by rewrite ILIKE_UPPER in Hm.
    + rewrite length_ORDER_BY.
      pose proof (List.filter_length_le
                    (fun s => ILIKE (stop_name s) ("%" +:+ n +:+ "%")) stops).
      unfold WHERE. lia.
Qed.

Lemma list_stops_name_filter_witness :
  (forall r, In r [summary queen] ->
     exists s, In s sample_stops /\ name_matches "queen" s = true /\
       matches_ci "queen" (stop_name s) /\ r = summary s) /\
  (0%nat = 0%nat -> (length sample_stops <= 50)%nat ->
   forall s, In s sample_stops -> matches_ci "queen" (stop_name s) ->
             In (summary s) [summary queen]).
Proof.
  apply (proj2 list_stops_name_filter sample_stops 50%nat 0%nat "queen"
           {| count := 1; results := [summary queen] |}).
  - discriminate.
  - reflexivity.
  - reflexivity.
  - reflexivity.
Defined.

(** *** [get_stop_by_code] *)


(** X10: [get_stop_by_code], called with an integer.  What it returns are the
    rows of the file that have the code, all of them and no other, in the
    order of the file, so at least one row.  When no row has the code, and the
    code is in the range of a 64-bit integer, it raises the 404 whose detail
    names the code in decimal; and when it raises an [HTTPException], that is
    this 404 and no row has the code. *)
Theorem get_stop_by_code_spec :
  (forall db code resp,
     get_stop_by_code db code = inr resp ->
     exists stops, db = Some stops /\
       results resp = map detail (List.filter (fun s => (stop_code s =? code)%Z) stops) /\
       (1 <= count resp)%nat /\
       (forall r, In r (results resp) -> stop_code r = code) /\
       (forall s, In s stops -> stop_code s = code -> In (detail s) (results resp))) /\
  (forall stops code,
     (- 2 ^ 63 <= code < 2 ^ 63)%Z ->
     (forall s, In s stops -> stop_code s <> code) ->
     get_stop_by_code (Some stops) code =
       inl (HTTPException 404 ("Stop Code " +:+ str code +:+ " not found"))) /\
  (forall db code status message,
     get_stop_by_code db code = inl (HTTPException status message) ->
     exists stops, db = Some stops /\
       (forall s, In s stops -> stop_code s <> code) /\ status = 404%Z /\
       message = "Stop Code " +:+ str code +:+ " not found").
Proof.
  split; [|split].
  - intros db code resp. destruct db as [stops|]; [|discriminate].
    unfold get_stop_by_code, query_stops.
    destruct (get_stop_by_code_sql code stops) as [|r rs] eqn:E; [discriminate|].
    intros [= <-]. exists stops. cbn [results count]. rewrite <- E.
    unfold get_stop_by_code_sql, WHERE. split; [reflexivity|]. split; [reflexivity|].
    split; [|split].
    + lia.
    + intros x (s & <- & Hs)%List.in_map_iff.
      apply filter_In in Hs as [_ Hc]. by apply Z.eqb_eq in Hc.
    + intros s Hs Hc. apply in_map, filter_In. split; [exact Hs|]. by apply Z.eqb_eq.
  - intros stops code _ Hnone.
    unfold get_stop_by_code, query_stops, get_stop_by_code_sql, WHERE.
    rewrite filter_none; [reflexivity|].
    intros s Hs. apply Z.eqb_neq. by apply Hnone.
  - intros db code status message. destruct db as [stops|]; [|discriminate].
    unfold get_stop_by_code, query_stops.
    destruct (get_stop_by_code_sql code stops) as [|r rs] eqn:E; [|discriminate].
    intros [= <- <-]. exists stops. split; [reflexivity|].
    split; [|split; reflexivity].
    intros s Hs Hc.
    assert (Hin : In (detail s) (get_stop_by_code_sql code stops)).
    { apply in_map, filter_In. split; [exact Hs|]. by apply Z.eqb_eq. }
    rewrite E in Hin. destruct Hin.
Qed.

Lemma get_stop_by_code_spec_witness :
  (exists stops, Some sample_stops = Some stops /\
     [detail queen] = map detail (List.filter (fun s => (stop_code s =? 1315)%Z) stops) /\
     (1 <= 1)%nat /\
     (forall r, In r [detail queen] -> stop_code r = 1315%Z) /\
     (forall s, In s stops -> stop_code s = 1315%Z -> In (detail s) [detail queen])) /\
  get_stop_by_code (Some sample_stops) 42 =
    inl (HTTPException 404 "Stop Code 42 not found") /\
  (exists stops, Some sample_stops = Some stops /\
     (forall s, In s stops -> stop_code s <> 42%Z) /\ 404%Z = 404%Z /\
     "Stop Code 42 not found" = "Stop Code " +:+ str 42 +:+ " not found").
Proof.
  split; [|split].
  - apply (proj1 get_stop_by_code_spec (Some sample_stops) 1315%Z
             {| count := 1; results := [detail queen] |}).
    reflexivity.
  - apply (proj1 (proj2 get_stop_by_code_spec) sample_stops 42%Z); [lia|].
    intros s [<-|[<-|[]]]; discriminate.
  - apply (proj2 (proj2 get_stop_by_code_spec) (Some sample_stops) 42%Z 404%Z
             "Stop Code 42 not found").
    reflexivity.
Defined.

(** *** The nearby operations *)

Lemma nearby_row_distance p1 p2 p3 s :
  distance_m (nearby_row p1 p2 p3 s) = distance_m_sql p1 p2 p3 s.
Proof. reflexivity. Qed.

(** When a row of the file is at distance 0 from the reference point, the
    response starts with a row at distance 0. *)
Lemma nearest_first p1 p2 p3 stops s0 radius limit :
  In s0 stops -> distance_m_sql p1 p2 p3 s0 = 0%R ->
  (0 <= radius)%R -> (1 <= limit)%nat ->
  exists st rest,
    List.filter (within radius) (nearby_sql (p1, p2, p3, limit) stops) = st :: rest /\
    distance_m st = 0%R.
Proof.
  intros Hs0 Hd0 Hr Hl. unfold nearby_sql, nearby_ordered.
  destruct (ORDER_BY by_distance_m (map (nearby_row p1 p2 p3) stops))
    as [|x more] eqn:E.
  - assert (Hin : In (nearby_row p1 p2 p3 s0)
                    (ORDER_BY by_distance_m (map (nearby_row p1 p2 p3) stops))).
    { apply In_ORDER_BY. by apply in_map. }
    rewrite E in Hin. destruct Hin.
  - destruct (ORDER_BY_head _ _ _ _ by_distance_m_total by_distance_m_trans E)
      as [Hx Hmin].
    assert (Hx0 : distance_m x = 0%R).
    { specialize (Hmin _ (in_map (nearby_row p1 p2 p3) _ _ Hs0)).
      apply by_distance_m_spec in Hmin. rewrite nearby_row_distance, Hd0 in Hmin.
      apply List.in_map_iff in Hx as (s & <- & _).
      pose proof (distance_m_sql_nonneg p1 p2 p3 s).
      rewrite nearby_row_distance in *. lra. }
    destruct limit as [|limit]; [lia|]. unfold LIMIT. cbn [firstn List.filter].
    assert (Hw : within radius x = true) by (apply within_spec; lra).
    rewrite Hw. eauto.
Qed.

Lemma by_name_first_row db name radius limit resp :
  get_nearby_by_name db name radius limit = inr resp ->
  (0 <= radius)%R -> (1 <= limit)%nat ->
  exists st rest, bn_results resp = st :: rest /\ distance_m st = 0%R.
Proof.
  intros Hcall Hr Hl.
  pose proof Hcall as (stops & -> & Href & Hres & Hc)%get_nearby_by_name_inr.
  destruct (ref_sql _ stops) as [|ref rest] eqn:E; [discriminate|].
  injection Href as Href.
  apply ref_sql_cons in E as (s & Hs & _ & -> & _).
  destruct (nearest_first (latitude s) (latitude s) (longitude s) stops s radius limit
              Hs (distance_m_sql_same s) Hr Hl) as (st & more & Hf & Hd).
  rewrite <- Href in Hres. cbn [ref_row stop_lat stop_lon] in Hres.
  rewrite Hf in Hres. eauto.
Qed.

(** X11: the reference is part of the answer.  A successful
    [get_nearby_by_name] with a radius that is not negative and a limit of at
    least 1 is never empty: its first row is at distance 0 (the reference
    stop or a stop at the same place).  The same holds for
    [get_nearby_by_coords] when a stop of the file is at the given point. *)
Theorem nearby_starts_at_reference :
  (forall db name radius limit resp,
     get_nearby_by_name db name radius limit = inr resp ->
     (0 <= radius)%R -> (1 <= limit)%nat ->
     (1 <= bn_count resp)%nat /\
     exists st rest, bn_results resp = st :: rest /\ distance_m st = 0%R) /\
  (forall stops s lat lon radius limit resp,
     get_nearby_by_coords (Some stops) lat lon radius limit = inr resp ->
     In s stops -> latitude s = lat -> longitude s = lon ->
     (0 <= radius)%R -> (1 <= limit)%nat ->
     (1 <= bc_count resp)%nat /\
     exists st rest, bc_results resp = st :: rest /\ distance_m st = 0%R).
Proof.
  split.
  - intros db name radius limit resp Hcall Hr Hl.
    destruct (by_name_first_row _ _ _ _ _ Hcall Hr Hl) as (st & more & Hres & Hd).
    apply get_nearby_by_name_inr in Hcall as (stops & _ & _ & _ & Hc).
    split; [rewrite Hc, Hres; simpl; lia|eauto].
  - intros stops s lat lon radius limit resp Hcall Hs <- <- Hr Hl.
    apply get_nearby_by_coords_inr in Hcall as (stops' & [= <-] & Hres & Hc & _).
    destruct (nearest_first (latitude s) (latitude s) (longitude s) stops s radius limit
                Hs (distance_m_sql_same s) Hr Hl) as (st & more & Hf & Hd).
    rewrite Hf in Hres. split; [rewrite Hc, Hres; simpl; lia|eauto].
Qed.

Lemma nearby_starts_at_reference_witness :
  ((1 <= 1)%nat /\
   exists st rest, [albert_from_albert] = st :: rest /\ distance_m st = 0%R) /\
  ((1 <= 1)%nat /\
   exists st rest, [albert_from_albert] = st :: rest /\ distance_m st = 0%R).
Proof.
  split.
  - apply (proj1 nearby_starts_at_reference (Some sample_stops) "albert" 100%R 20%nat
             _ (get_nearby_by_name_albert_100 20 ltac:(lia))); [lra|lia].
  - apply (proj2 nearby_starts_at_reference sample_stops albert (latitude albert)
             (longitude albert) 0%R 20%nat _
             (get_nearby_by_coords_albert 0 [albert_from_albert]
                (within_sample 0 ltac:(lra))));
      [by left|reflexivity|reflexivity|lra|lia].
Defined.

Lemma filter_within_le r1 r2 (l : list NearbyStop) :
  (r1 <= r2)%R ->
  List.filter (within r1) (List.filter (within r2) l) = List.filter (within r1) l.
Proof.
  intros Hle. induction l as [|a l IH]; [reflexivity|]. cbn [List.filter].
  destruct (within r2 a) eqn:E2; cbn [List.filter]; rewrite IH; [reflexivity|].
  destruct (within r1 a) eqn:E1; [|reflexivity].
  apply within_spec in E1. apply Rleb_false in E2. lra.
Qed.

Lemma filter_nearby_limit radius p1 p2 p3 l1 l2 stops :
  (l1 <= l2)%nat ->
  List.filter (within radius) (nearby_sql (p1, p2, p3, l1) stops) =
  LIMIT l1 (List.filter (within radius) (nearby_sql (p1, p2, p3, l2) stops)).
Proof.
  intros Hle. unfold nearby_sql.
  pose proof (nearby_ordered_sorted p1 p2 p3 stops) as Hs.
  rewrite !(filter_LIMIT_comm by_distance_m (within radius) (within_down radius)) by done.
  unfold LIMIT. rewrite firstn_firstn. by rewrite Nat.min_l.
Qed.

(** X12: widening the search only adds rows at the end.  With the same
    reference point, the response for a smaller radius is the response for a
    larger one filtered by the smaller radius, and the response for a smaller
    limit is the first rows of the response for a larger one. *)
Theorem nearby_monotone :
  (forall db lat lon r1 r2 limit resp1 resp2,
     (r1 <= r2)%R ->
     get_nearby_by_coords db lat lon r1 limit = inr resp1 ->
     get_nearby_by_coords db lat lon r2 limit = inr resp2 ->
     bc_results resp1 = List.filter (within r1) (bc_results resp2)) /\
  (forall db lat lon radius l1 l2 resp1 resp2,
     (l1 <= l2)%nat ->
     get_nearby_by_coords db lat lon radius l1 = inr resp1 ->
     get_nearby_by_coords db lat lon radius l2 = inr resp2 ->
     bc_results resp1 = LIMIT l1 (bc_results resp2)) /\
  (forall db name r1 r2 limit resp1 resp2,
     (r1 <= r2)%R ->
     get_nearby_by_name db name r1 limit = inr resp1 ->
     get_nearby_by_name db name r2 limit = inr resp2 ->
     reference_stop resp1 = reference_stop resp2 /\
     bn_results resp1 = List.filter (within r1) (bn_results resp2)) /\
  (forall db name radius l1 l2 resp1 resp2,
     (l1 <= l2)%nat ->
     get_nearby_by_name db name radius l1 = inr resp1 ->
     get_nearby_by_name db name radius l2 = inr resp2 ->
     reference_stop resp1 = reference_stop resp2 /\
     bn_results resp1 = LIMIT l1 (bn_results resp2)).
Proof.
  split; [|split; [|split]].
  - intros db lat lon r1 r2 limit resp1 resp2 Hle
      (stops & -> & H1 & _)%get_nearby_by_coords_inr
      (stops2 & [= <-] & H2 & _)%get_nearby_by_coords_inr.
    by rewrite H1, H2, filter_within_le.
  - intros db lat lon radius l1 l2 resp1 resp2 Hle
      (stops & -> & H1 & _)%get_nearby_by_coords_inr
      (stops2 & [= <-] & H2 & _)%get_nearby_by_coords_inr.
    rewrite H1, H2. by apply filter_nearby_limit.
  - intros db name r1 r2 limit resp1 resp2 Hle
      (stops & -> & Href1 & H1 & _)%get_nearby_by_name_inr
      (stops2 & [= <-] & Href2 & H2 & _)%get_nearby_by_name_inr.
    assert (Href : reference_stop resp1 = reference_stop resp2) by congruence.
    split; [exact Href|]. rewrite H1, H2, Href. by rewrite filter_within_le.
  - intros db name radius l1 l2 resp1 resp2 Hle
      (stops & -> & Href1 & H1 & _)%get_nearby_by_name_inr
      (stops2 & [= <-] & Href2 & H2 & _)%get_nearby_by_name_inr.
    assert (Href : reference_stop resp1 = reference_stop resp2) by congruence.
    split; [exact Href|]. rewrite H1, H2, Href. by apply filter_nearby_limit.
Qed.

Lemma nearby_monotone_witness :
  [albert_from_albert] = List.filter (within 0) [albert_from_albert] /\
  [albert_from_albert] = LIMIT 1 [albert_from_albert] /\
  (ref_row albert = ref_row albert /\
   [albert_from_albert] = List.filter (within 100) [albert_from_albert]) /\
  (ref_row albert = ref_row albert /\
   [albert_from_albert] = LIMIT 1 [albert_from_albert]).
Proof.
  split; [|split; [|split]].
  - apply (proj1 nearby_monotone (Some sample_stops) (latitude albert)
             (longitude albert) 0%R 100%R 20%nat _ _ ltac:(lra)
             (get_nearby_by_coords_albert 0 [albert_from_albert]
                (within_sample 0 ltac:(lra)))
             (get_nearby_by_coords_albert 100 [albert_from_albert]
                (within_sample 100 ltac:(lra)))).
  - apply (proj1 (proj2 nearby_monotone) (Some sample_stops) (latitude albert)
             (longitude albert) 100%R 1%nat 20%nat
             {| reference_coords := (latitude albert, longitude albert);
                bc_radius_m := 100; bc_count := 1;
                bc_results := [albert_from_albert] |}
             {| reference_coords := (latitude albert, longitude albert);
                bc_radius_m := 100; bc_count := 1;
                bc_results := [albert_from_albert] |}
             ltac:(lia)).
    + apply (get_nearby_by_coords_sample 100 1 [albert_from_albert]).
      unfold LIMIT. cbn [firstn List.filter].
      assert (Ha : within 100 albert_from_albert = true).
      { apply within_spec. rewrite distance_albert_from_albert. lra. }
      by rewrite Ha.
    + apply (get_nearby_by_coords_albert 100 [albert_from_albert]
               (within_sample 100 ltac:(lra))).
  - apply (proj1 (proj2 (proj2 nearby_monotone)) (Some sample_stops) "albert"
             100%R 100%R 20%nat _ _ ltac:(lra)
             (get_nearby_by_name_albert_100 20 ltac:(lia))
             (get_nearby_by_name_albert_100 20 ltac:(lia))).
  - apply (proj2 (proj2 (proj2 nearby_monotone)) (Some sample_stops) "albert"
             100%R 1%nat 20%nat _ _ ltac:(lia)
             (get_nearby_by_name_albert_100 1 ltac:(lia))
             (get_nearby_by_name_albert_100 20 ltac:(lia))).
Defined.

(** X13: [get_nearby_by_name] is [get_nearby_by_coords] at the place of the
    reference stop: same rows, same count. *)
Theorem by_name_is_by_coords db name radius limit resp :
  get_nearby_by_name db name radius limit = inr resp ->
  get_nearby_by_coords db (stop_lat (reference_stop resp))
    (stop_lon (reference_stop resp)) radius limit =
    inr {| reference_coords := (stop_lat (reference_stop resp),
                                stop_lon (reference_stop resp));
           bc_radius_m := radius;
           bc_count := bn_count resp;
           bc_results := bn_results resp |}.
Proof.
  intros (stops & -> & _ & Hres & Hc)%get_nearby_by_name_inr.
  rewrite get_nearby_by_coords_Some, Hc, Hres. reflexivity.
Qed.

Lemma by_name_is_by_coords_witness :
  get_nearby_by_coords (Some sample_stops) (latitude albert) (longitude albert) 100 20 =
    inr {| reference_coords := (latitude albert, longitude albert);
           bc_radius_m := 100;
           bc_count := 1;
           bc_results := [albert_from_albert] |}.
Proof.
  apply (by_name_is_by_coords (Some sample_stops) "albert" 100%R 20%nat _
           (get_nearby_by_name_albert_100 20 ltac:(lia))).
Defined.

Lemma half_circumference : (6371000 * PI <= 20015087)%R.
Proof.
  pose proof (PI_2_3_7_ineq 4) as [_ Hhi].
  unfold sum_f_R0, tg_alt, PI_2_3_7_tg, Ratan_seq in Hhi.
  simpl in Hhi. lra.
Qed.

Lemma distance_m_sql_upper p1 p2 p3 s : (distance_m_sql p1 p2 p3 s <= 6371000 * PI)%R.
Proof.
  unfold distance_m_sql, ASIN. destruct (asin_bound (SQRT
    (POWER (SIN (RADIANS (latitude s - p1) / 2)) 2 +
     COS (RADIANS p2) * COS (RADIANS (latitude s)) *
     POWER (SIN (RADIANS (longitude s - p3) / 2)) 2))) as [_ H]. lra.
Qed.

(** X14: no distance exceeds half the circumference of the sphere,
    [6371000 * pi] metres, so a radius of 20015087 m or more filters nothing:
    the response is the [limit] nearest rows of the file and its count is the
    smaller of [limit] and the number of rows. *)
Theorem radius_beyond_half_circumference :
  (forall p1 p2 p3 s,
     (0 <= distance_m_sql p1 p2 p3 s <= 6371000 * PI)%R) /\
  (forall db lat lon radius limit resp,
     (20015087 <= radius)%R ->
     get_nearby_by_coords db lat lon radius limit = inr resp ->
     exists stops, db = Some stops /\
       bc_results resp = nearby_sql (lat, lat, lon, limit) stops /\
       bc_count resp = Nat.min limit (length stops)).
Proof.
  split; [intros; split; [apply distance_m_sql_nonneg|apply distance_m_sql_upper]|].
  intros db lat lon radius limit resp Hr (stops & -> & Hres & Hc & _)%get_nearby_by_coords_inr.
  exists stops. split; [reflexivity|].
  assert (Hall : List.filter (within radius) (nearby_sql (lat, lat, lon, limit) stops)
                 = nearby_sql (lat, lat, lon, limit) stops).
  { apply filter_all. intros st (s & _ & ->)%In_nearby_sql. apply within_spec.
    rewrite nearby_row_distance. pose proof (distance_m_sql_upper lat lat lon s).
    pose proof half_circumference. lra. }
  rewrite Hall in Hres. split; [exact Hres|].
  rewrite Hc, Hres. unfold nearby_sql, nearby_ordered, LIMIT.
  by rewrite length_firstn, length_ORDER_BY, length_map.
Qed.

Lemma radius_beyond_half_circumference_witness :
  exists stops, Some sample_stops = Some stops /\
    List.filter (within 30000000)
      (nearby_sql (latitude albert, latitude albert, longitude albert, 20%nat)
         sample_stops)
    = nearby_sql (latitude albert, latitude albert, longitude albert, 20%nat) stops /\
    length (List.filter (within 30000000)
              (nearby_sql (latitude albert, latitude albert, longitude albert, 20%nat)
                 sample_stops))
    = Nat.min 20 (length stops).
Proof.
  apply (proj2 radius_beyond_half_circumference (Some sample_stops) (latitude albert)
           (longitude albert) 30000000%R 20%nat _ ltac:(lra)
           (get_nearby_by_coords_Some _ _ _ _ _)).
Defined.

(** *** All four operations *)

(** X15: the missing file.  Without [data/stops.parquet] every operation
    raises the [FileNotFoundError] of [query_stops], whatever its arguments,
    and [get_nearby_by_name] and [get_stop_by_code] never reach their 404;
    and none of the four raises a [FileNotFoundError] when the file is
    there. *)
Theorem missing_file :
  let e := FileNotFoundError "Parquet file not found at data/stops.parquet" in
  (forall limit offset name, list_stops None limit offset name = inl e) /\
  (forall code, get_stop_by_code None code = inl e) /\
  (forall name radius limit, get_nearby_by_name None name radius limit = inl e) /\
  (forall lat lon radius limit, get_nearby_by_coords None lat lon radius limit = inl e) /\
  (forall db limit offset name message,
     list_stops db limit offset name = inl (FileNotFoundError message) -> db = None) /\
  (forall db code message,
     get_stop_by_code db code = inl (FileNotFoundError message) -> db = None) /\
  (forall db name radius limit message,
     get_nearby_by_name db name radius limit = inl (FileNotFoundError message) ->
     db = None) /\
  (forall db lat lon radius limit message,
     get_nearby_by_coords db lat lon radius limit = inl (FileNotFoundError message) ->
     db = None).
Proof.
  cbv zeta.
  split; [reflexivity|]. split; [reflexivity|]. split; [reflexivity|].
  split; [reflexivity|]. split; [|split; [|split]].
  - intros [stops|] limit offset name message H; [discriminate|reflexivity].
  - intros [stops|] code message H; [|reflexivity].
    unfold get_stop_by_code, query_stops in H.
    destruct (get_stop_by_code_sql code stops); discriminate.
  - intros [stops|] name radius limit message H; [|reflexivity].
    unfold get_nearby_by_name, query_stops in H.
    destruct (ref_sql _ stops); discriminate.
  - intros [stops|] lat lon radius limit message H; [discriminate|reflexivity].
Qed.

Lemma missing_file_witness :
  @None (list StopRecord) = None /\ @None (list StopRecord) = None.
Proof.
  split.
  - apply (proj1 (proj2 (proj2 (proj2 (proj2 missing_file)))) None 50%nat 0%nat None
             "Parquet file not found at data/stops.parquet").
    reflexivity.
  - apply (proj1 (proj2 (proj2 (proj2 (proj2 (proj2 (proj2 missing_file))))))
             None "albert" 100%R 20%nat "Parquet file not found at data/stops.parquet").
    reflexivity.
Defined.









End BusStopsExtra.

(** ** The application: middleware, key, routes *)

Module AppExtra.
Import RateLimit RateLimitRuns BusStops App.
Import ListFacts RateLimitFacts RateLimitTheorems RateLimitExtra.
Import BusStopsFacts BusStopsTheorems BusStopsExtra.

(** *** What the routes raise *)

Lemma raised_inr {A} (r : exception + A) a : raised r = inr a -> r = inr a.
Proof. destruct r; [discriminate|]. by intros [= ->]. Qed.

Lemma raised_inl {A} (r : exception + A) f :
  raised r = inl f -> exists e, r = inl e /\ f = Raised e.
Proof. destruct r as [e|]; [|discriminate]. intros [= <-]. eauto. Qed.

(** The controllers raise no [HTTPException] but the 404. *)
Lemma controllers_raise_404 :
  (forall db limit offset name status message,
     list_stops db limit offset name <> inl (HTTPException status message)) /\
  (forall db code status message,
     get_stop_by_code db code = inl (HTTPException status message) -> status = 404%Z) /\
  (forall db name radius limit status message,
     get_nearby_by_name db name radius limit = inl (HTTPException status message) ->
     status = 404%Z) /\
  (forall db lat lon radius limit status message,
     get_nearby_by_coords db lat lon radius limit <> inl (HTTPException status message)).
Proof.
  split; [|split; [|split]].
  - intros [stops|] limit offset name status message; discriminate.
  - intros [stops|] code status message; [|discriminate].
    unfold get_stop_by_code, query_stops.
    destruct (get_stop_by_code_sql code stops); [|discriminate]. by intros [= <- _].
  - intros [stops|] name radius limit status message; [|discriminate].
    unfold get_nearby_by_name, query_stops.
    destruct (ref_sql _ stops); [|discriminate]. by intros [= <- _].
  - intros [stops|] lat lon radius limit status message; discriminate.
Qed.

Lemma router_status db q status message :
  router db q = inl (Raised (HTTPException status message)) -> status = 404%Z.
Proof.
  destruct controllers_raise_404 as (H1 & H2 & H3 & H4).
  destruct q as [limit offset name|code|name radius limit|lat lon radius limit];
    cbn [router].
  - unfold route_list_stops. destruct (_ && _); [|discriminate].
    destruct (raised _) as [f|r] eqn:E; [|discriminate]. intros [= ->].
    apply raised_inl in E as (e & E & [= <-]). by apply H1 in E.
  - unfold route_get_stop_by_code.
    destruct (raised _) as [f|r] eqn:E; [|discriminate]. intros [= ->].
    apply raised_inl in E as (e & E & [= <-]). by apply H2 in E.
  - unfold route_nearby_by_name. destruct name as [name|]; [|discriminate].
    destruct (_ && _); [|discriminate].
    destruct (raised _) as [f|r] eqn:E; [|discriminate]. intros [= ->].
    apply raised_inl in E as (e & E & [= <-]). by apply H3 in E.
  - unfold route_nearby_by_coords. destruct lat as [lat|]; [|discriminate].
    destruct lon as [lon|]; [|discriminate].
    destruct (_ && _); [|discriminate].
    destruct (raised _) as [f|r] eqn:E; [|discriminate]. intros [= ->].
    apply raised_inl in E as (e & E & [= <-]). by apply H4 in E.
Qed.

(** No route answers with the response of the middleware. *)
Lemma endpoints_not_429 env now req : too_many_requests (endpoints env now req) = false.
Proof.
  unfold endpoints. destruct (path req) as [|q]; [reflexivity|].
  unfold guarded_router. destruct (x_api_key req) as [key|]; [|reflexivity].
  unfold require_api_key. destruct (differs key (API_KEY env)); [reflexivity|].
  destruct (router _ q) as [[[status message|message]|]|p] eqn:E; try reflexivity.
  apply router_status in E as ->. reflexivity.
Qed.

(** *** The limiter in front of the routes *)

Lemma serve_cons env cfg now later req rest (st : requests) :
  serve env cfg ((now, later, req) :: rest) st =
    (fst (fst (app env cfg now later req st))
       :: fst (serve env cfg rest (snd (fst (app env cfg now later req st)))),
     snd (serve env cfg rest (snd (fst (app env cfg now later req st))))).
Proof.
  cbn [serve]. destruct (app env cfg now later req st) as [[response st1] logs].
  cbn [fst snd]. by destruct (serve env cfg rest st1).
Qed.

Lemma app_unfold env cfg now later req (st : requests) :
  app env cfg now later req st =
    if fst (rate_limiter cfg now (client_host req) st)
    then (endpoints env later req, snd (rate_limiter cfg now (client_host req) st), [])
    else (inl (Raised (HTTPException 429 "Too many requests")),
          snd (rate_limiter cfg now (client_host req) st),
          [{| levelname := "WARNING"; msg := "rate_limit_exceeded";
              extra_ip := client_host req |}]).
Proof.
  unfold app, rate_limit_middleware.
  by destruct (rate_limiter cfg now (client_host req) st) as [[] st1].
Qed.

Lemma passed_is_admitted env cfg reqs : forall (st : requests) host,
  passed env cfg reqs st host = admitted cfg (limiter_calls reqs) st host /\
  snd (serve env cfg reqs st) = snd (run cfg (limiter_calls reqs) st).
Proof.
  induction reqs as [|[[now later] req] rest IH]; intros st host; [by split|].
  unfold passed, admitted. cbn [limiter_calls map fst snd].
  rewrite answered_cons, serve_cons, run_cons, app_unfold. cbn [fst snd combine].
  destruct (IH (snd (rate_limiter cfg now (client_host req) st)) host) as [IH1 IH2].
  unfold passed, admitted in IH1. fold (limiter_calls rest).
  destruct (fst (rate_limiter cfg now (client_host req) st)) eqn:E;
    cbn [fst snd List.filter andb negb too_many_requests].
  - rewrite endpoints_not_429. cbn [negb andb].
    destruct (String.eqb (client_host req) host); cbn [map fst snd];
      by rewrite IH1, IH2.
  - by rewrite IH1, IH2.
Qed.

(** X17: the limit as the clients see it.  Along any sequence of requests
    whose clock readings never decrease, for every host and every time [t],
    at most [MAX_REQUESTS] requests of the host with their clock reading in
    [(t - WINDOW_SECONDS, t]] get past the middleware to a route; every other
    one is answered by the 429 of the middleware. *)
Theorem served_within_limit env cfg reqs host t :
  (0 <= MAX_REQUESTS cfg)%Z ->
  Sorted Qle (map (fun p => fst (fst p)) reqs) ->
  (Z.of_nat (length (List.filter (in_window_at cfg t) (passed env cfg reqs ∅ host)))
   <= MAX_REQUESTS cfg)%Z.
Proof.
  intros HM. induction reqs as [|[[now later] req] reqs IH] using rev_ind; intros Hs.
  - simpl. lia.
  - rewrite (proj1 (passed_is_admitted env cfg _ ∅ host)).
    unfold limiter_calls. rewrite map_app. cbn [map fst snd].
    fold (limiter_calls reqs).
    rewrite map_app in Hs. cbn [map fst] in Hs.
    apply window_bound_snoc; [exact HM| |].
    + rewrite map_app. unfold limiter_calls. by rewrite map_map.
    + rewrite <- (proj1 (passed_is_admitted env cfg reqs ∅ host)).
      apply IH. by apply Sorted_snoc_inv in Hs as [Hs _].
Qed.

Lemma served_within_limit_witness :
  (Z.of_nat (length (List.filter (in_window_at scenario_2_10 2)
                       (passed example_env scenario_2_10
                          [(0%Q, 0%Q, health_check); (1%Q, 1%Q, nearby_albert None);
                           (2%Q, 2%Q, health_check)] ∅ "10.0.0.7")))
   <= 2)%Z.
Proof.
  apply (served_within_limit example_env scenario_2_10
           [(0%Q, 0%Q, health_check); (1%Q, 1%Q, nearby_albert None);
            (2%Q, 2%Q, health_check)] "10.0.0.7" 2%Q).
  - simpl. lia.
  - simpl. repeat constructor; discriminate.
Defined.

(** *** The key *)

Lemma differs_false key API_KEY : differs key API_KEY = false <-> API_KEY = Some key.
Proof.
  unfold differs. destruct API_KEY as [k|]; [|split; discriminate].
  rewrite negb_false_iff, String.eqb_eq. split; [by intros ->|by intros [= ->]].
Qed.

(** X18: the key guards the stop routes and nothing else.  A request to a
    stop route gets a payload only if [API_KEY] is set and the header
    [x-api-key] is that very text; with any other header it gets the 401,
    whatever the parameters and the state of the file; without the header it
    is refused as invalid; the health check answers without a key. *)
Theorem stops_need_the_key :
  (forall env now req q p,
     path req = StopsRoute q -> endpoints env now req = inr p ->
     exists key, x_api_key req = Some key /\ API_KEY env = Some key) /\
  (forall env now req q key,
     path req = StopsRoute q -> x_api_key req = Some key -> API_KEY env <> Some key ->
     endpoints env now req =
       inl (Raised (HTTPException 401 "Invalid or missing API Key."))) /\
  (forall env now req q,
     path req = StopsRoute q -> x_api_key req = None ->
     endpoints env now req = inl RequestValidationError) /\
  (forall env now req,
     path req = Root -> endpoints env now req = inr (health env now)).
Proof.
  split; [|split; [|split]].
  - intros env now req q p Hpath. unfold endpoints, guarded_router. rewrite Hpath.
    destruct (x_api_key req) as [key|]; [|discriminate]. unfold require_api_key.
    destruct (differs key (API_KEY env)) eqn:E; [discriminate|].
    intros _. exists key. split; [reflexivity|]. by apply differs_false.
  - intros env now req q key Hpath Hkey Hne. unfold endpoints, guarded_router.
    rewrite Hpath, Hkey. unfold require_api_key.
    destruct (differs key (API_KEY env)) eqn:E; [reflexivity|].
    by apply differs_false in E.
  - intros env now req q Hpath Hkey. unfold endpoints, guarded_router.
    by rewrite Hpath, Hkey.
  - intros env now req Hpath. unfold endpoints. by rewrite Hpath.
Qed.

Lemma stops_need_the_key_witness :
  (exists key, x_api_key (nearby_albert (Some "s3cret")) = Some key /\
               API_KEY example_env = Some key) /\
  endpoints example_env 1001 (nearby_albert (Some "S3CRET")) =
    inl (Raised (HTTPException 401 "Invalid or missing API Key.")) /\
  endpoints example_env 1001 (nearby_albert None) = inl RequestValidationError /\
  endpoints example_env 1001 health_check = inr (health example_env 1001).
Proof.
  split; [|split; [|split]].
  - apply (proj1 stops_need_the_key example_env 1001%Q (nearby_albert (Some "s3cret"))
             (GetNearbyByName (Some "albert") None None)
             (NearbyByName {| reference_stop := ref_row albert;
                              bn_radius_m := 100;
                              bn_count := 1;
                              bn_results := [albert_from_albert] |}));
      [reflexivity|].
    unfold endpoints, guarded_router, nearby_albert. cbn [path x_api_key].
    unfold require_api_key, example_env. cbn [API_KEY stops_parquet differs].
    cbn [String.eqb Ascii.eqb Bool.eqb negb andb router route_nearby_by_name default].
    assert (Hv : Rleb 0 100 && between 1 20 200 = true).
    { apply andb_true_iff. split; [apply Rleb_true; lra|reflexivity]. }
    rewrite Hv. change (Z.to_nat 20) with 20%nat.
    by rewrite (get_nearby_by_name_albert_100 20 ltac:(lia)).
  - by apply (proj1 (proj2 stops_need_the_key) example_env 1001%Q
                (nearby_albert (Some "S3CRET"))
                (GetNearbyByName (Some "albert") None None) "S3CRET").
  - by apply (proj1 (proj2 (proj2 stops_need_the_key)) example_env 1001%Q
                (nearby_albert None) (GetNearbyByName (Some "albert") None None)).
  - by apply (proj2 (proj2 (proj2 stops_need_the_key)) example_env 1001%Q health_check).
Defined.

(** *** The routes *)

Lemma between_spec lo x hi : between lo x hi = true <-> (lo <= x <= hi)%Z.
Proof. unfold between. rewrite andb_true_iff, !Z.leb_le. tauto. Qed.

Lemma nearby_rows_bounds radius p1 p2 p3 limit stops st :
  In st (List.filter (within radius) (nearby_sql (p1, p2, p3, limit) stops)) ->
  (0 <= distance_m st <= radius)%R.
Proof.
  intros [Hst Hw]%filter_In. apply within_spec in Hw.
  pose proof (nearby_sql_nonneg _ _ _ _ _ _ Hst). lra.
Qed.

Lemma nearby_rows_length radius p1 p2 p3 limit stops :
  (length (List.filter (within radius) (nearby_sql (p1, p2, p3, limit) stops))
   <= limit)%nat.
Proof.
  pose proof (List.filter_length_le (within radius)
                (nearby_sql (p1, p2, p3, limit) stops)) as H1.
  assert (H2 : (length (nearby_sql (p1, p2, p3, limit) stops) <= limit)%nat)
    by apply firstn_le_length.
  lia.
Qed.

(** X19: what the declarations of the routes guarantee.  A page of
    [GET /stops/] has at most 1000 rows and at most the [limit] asked for (50
    when none is given); a success of [GET /stops/nearby/by-name] has between
    1 and 200 rows, starts with a row at distance 0, and all its rows are
    within the radius asked for (100 m when none is given); a success of
    [GET /stops/nearby/by-coords] has at most 200 rows, all within the
    radius. *)
Theorem route_bounds :
  (forall db limit offset name p,
     route_list_stops db limit offset name = inr p ->
     exists r, p = Stops r /\ (count r <= 1000)%nat /\
       (Z.of_nat (count r) <= default 50 limit)%Z) /\
  (forall db name radius limit p,
     route_nearby_by_name db name radius limit = inr p ->
     exists r, p = NearbyByName r /\ (1 <= bn_count r <= 200)%nat /\
       (exists st rest, bn_results r = st :: rest /\ distance_m st = 0%R) /\
       forall st, In st (bn_results r) -> (0 <= distance_m st <= default 100 radius)%R) /\
  (forall db lat lon radius limit p,
     route_nearby_by_coords db lat lon radius limit = inr p ->
     exists r, p = NearbyByCoords r /\ (bc_count r <= 200)%nat /\
       forall st, In st (bc_results r) -> (0 <= distance_m st <= default 100 radius)%R).
Proof.
  split; [|split].
  - intros db limit offset name p. unfold route_list_stops.
    destruct (between 1 (default 50%Z limit) 1000 && _) eqn:Ev; [|discriminate].
    apply andb_true_iff in Ev as [Hl%between_spec _].
    destruct (raised _) as [f|r] eqn:E; [discriminate|]. intros [= <-].
    apply raised_inr, list_stops_inr in E as (stops & _ & Hres & Hc).
    exists r. split; [reflexivity|].
    assert (Hlen : (count r <= Z.to_nat (default 50%Z limit))%nat).
    { rewrite Hc, Hres. unfold list_stops_sql. rewrite length_map.
      apply firstn_le_length. }
    split; lia.
  - intros db name radius limit p. unfold route_nearby_by_name.
    destruct name as [name|]; [|discriminate].
    destruct (Rleb 0 (default 100%R radius) && _) eqn:Ev; [|discriminate].
    apply andb_true_iff in Ev as [Hr%Rleb_true Hl%between_spec].
    destruct (raised _) as [f|r] eqn:E; [discriminate|]. intros [= <-].
    apply raised_inr in E. exists r. split; [reflexivity|].
    destruct (by_name_first_row _ _ _ _ _ E Hr ltac:(lia)) as (st & rest & Hfirst & Hd).
    apply get_nearby_by_name_inr in E as (stops & _ & _ & Hres & Hc).
    pose proof (nearby_rows_length (default 100%R radius)
                  (stop_lat (reference_stop r)) (stop_lat (reference_stop r))
                  (stop_lon (reference_stop r)) (Z.to_nat (default 20%Z limit)) stops)
      as Hlen.
    rewrite <- Hres, <- Hc in Hlen.
    split; [|split].
    + split; [rewrite Hc, Hfirst; simpl; lia|lia].
    + eauto.
    + intros x Hx. rewrite Hres in Hx. by apply nearby_rows_bounds in Hx.
  - intros db lat lon radius limit p. unfold route_nearby_by_coords.
    destruct lat as [lat|]; [|discriminate]. destruct lon as [lon|]; [|discriminate].
    destruct (Rleb 0 (default 100%R radius) && _) eqn:Ev; [|discriminate].
    apply andb_true_iff in Ev as [Hr%Rleb_true Hl%between_spec].
    destruct (raised _) as [f|r] eqn:E; [discriminate|]. intros [= <-].
    apply raised_inr, get_nearby_by_coords_inr in E as (stops & _ & Hres & Hc & _).
    exists r. split; [reflexivity|].
    pose proof (nearby_rows_length (default 100%R radius) lat lat lon
                  (Z.to_nat (default 20%Z limit)) stops) as Hlen.
    rewrite <- Hres, <- Hc in Hlen. split; [lia|].
    intros x Hx. rewrite Hres in Hx. by apply nearby_rows_bounds in Hx.
Qed.

Lemma route_nearby_by_name_albert :
  route_nearby_by_name (Some sample_stops) (Some "albert") None None =
    inr (NearbyByName {| reference_stop := ref_row albert;
                         bn_radius_m := 100;
                         bn_count := 1;
                         bn_results := [albert_from_albert] |}).
Proof.
  unfold route_nearby_by_name. cbn [default].
  assert (Hv : Rleb 0 100 && between 1 20 200 = true).
  { apply andb_true_iff. split; [apply Rleb_true; lra|reflexivity]. }
  rewrite Hv. change (Z.to_nat 20) with 20%nat.
  by rewrite (get_nearby_by_name_albert_100 20 ltac:(lia)).
Qed.

Lemma route_bounds_witness :
  (exists r, Stops {| count := 2; results := [summary queen; summary albert] |} = Stops r /\
     (count r <= 1000)%nat /\ (Z.of_nat (count r) <= 50)%Z) /\
  (exists r, NearbyByName {| reference_stop := ref_row albert;
                             bn_radius_m := 100;
                             bn_count := 1;
                             bn_results := [albert_from_albert] |} = NearbyByName r /\
     (1 <= bn_count r <= 200)%nat /\
     (exists st rest, bn_results r = st :: rest /\ distance_m st = 0%R) /\
     forall st, In st (bn_results r) -> (0 <= distance_m st <= 100)%R).
Proof.
  split.
  - apply (proj1 route_bounds (Some sample_stops) None None None). reflexivity.
  - apply (proj1 (proj2 route_bounds) (Some sample_stops) (Some "albert") None None).
    exact route_nearby_by_name_albert.
Defined.

(** *** The health check *)

(** [int] of a number that is not negative is its integer part. *)
Lemma int_bounds (x : Q) :
  (0 <= x)%Q ->
  (0 <= int x)%Z /\ (inject_Z (int x) <= x < inject_Z (int x) + 1)%Q.
Proof.
  destruct x as [n d]. unfold Qle, Qlt, Qplus, int. cbn [Qnum Qden inject_Z].
  intros Hn. rewrite Z.quot_div_nonneg by lia.
  pose proof (Z.mul_div_le n (Zpos d) ltac:(lia)) as H1.
  pose proof (Z.mul_succ_div_gt n (Zpos d) ltac:(lia)) as H2.
  split; [apply Z.div_pos; lia|]. split; lia.
Qed.

(** X20: the uptime of the health check is the whole number of seconds since
    the module was loaded: when the clock has not gone back it is not
    negative and [uptime <= now - start_time < uptime + 1]. *)
Theorem health_uptime env now :
  (start_time env <= now)%Q ->
  exists uptime,
    health env now = Health "API status 🚀" "bus-stop-api" "1.0.0" uptime /\
    (0 <= uptime)%Z /\
    (inject_Z uptime <= now - start_time env < inject_Z uptime + 1)%Q.
Proof.
  intros Hle. exists (int (now - start_time env)). split; [reflexivity|].
  apply int_bounds. lra.
Qed.

Lemma health_uptime_witness :
  exists uptime,
    health example_env (2007 # 2) =
      Health "API status 🚀" "bus-stop-api" "1.0.0" uptime /\
    (0 <= uptime)%Z /\
    (inject_Z uptime <= (2007 # 2) - start_time example_env < inject_Z uptime + 1)%Q.
Proof.
  apply (health_uptime example_env (2007 # 2)). simpl. discriminate.
Defined.

End AppExtra.

(** ** The log lines *)

Module LoggingExtra.
Import Logging LoggingRead.

Lemma string_app_assoc (a b c : string) : (a +:+ b) +:+ c = a +:+ b +:+ c.
Proof.
  induction a as [|x a IH]; [reflexivity|].
  change (String x ((a +:+ b) +:+ c) = String x (a +:+ b +:+ c)). by rewrite IH.
Qed.

Lemma string_app_nil_r (a : string) : a +:+ "" = a.
Proof.
  induction a as [|x a IH]; [reflexivity|].
  change (String x (a +:+ "") = String x a). by rewrite IH.
Qed.

(** The line of [format], written out. *)
Lemma format_unfold record :
  format record =
    "{" +:+ json_string "level" +:+ ": " +:+ json_string (levelname record) +:+ ", " +:+
    json_string "message" +:+ ": " +:+ json_string (getMessage record) +:+ ", " +:+
    json_string "logger" +:+ ": " +:+ json_string (name record) +:+ ", " +:+
    json_string "time" +:+ ": " +:+ json_string (formatTime record) +:+ "}".
Proof.
  unfold format, dumps. cbv zeta. cbn [dumps_items].
  by rewrite string_app_nil_r, !string_app_assoc.
Qed.

Lemma all_printable_app a b :
  all_printable (a +:+ b) = all_printable a && all_printable b.
Proof.
  induction a as [|x a IH]; [reflexivity|].
  change (printable x && all_printable (a +:+ b)
          = printable x && all_printable a && all_printable b).
  by rewrite IH, andb_assoc.
Qed.

Lemma json_escape_char_printable c : all_printable (json_escape_char c) = true.
Proof. destruct c as [[] [] [] [] [] [] [] []]; reflexivity. Qed.

Lemma json_escape_printable s : all_printable (json_escape s) = true.
Proof.
  induction s as [|c s IH]; [reflexivity|]. cbn [json_escape].
  by rewrite all_printable_app, json_escape_char_printable, IH.
Qed.

Lemma json_string_printable s : all_printable (json_string s) = true.
Proof.
  unfold json_string. cbn [all_printable].
  by rewrite all_printable_app, json_escape_printable.
Qed.

(** X21: whatever the level, the message, the logger name and the time of a
    record are, every character of the line that [format] writes is a
    printable ASCII character: a line break or a control character in a
    message never reaches the output as such, so one record is one line. *)
Theorem format_printable record : all_printable (format record) = true.
Proof.
  rewrite format_unfold, !all_printable_app, !json_string_printable. reflexivity.
Qed.

Lemma read_escape_char c t :
  read_string (json_escape_char c +:+ t) =
    match read_string t with
    | Some (u, rest) => Some (String c u, rest)
    | None => None
    end.
Proof. destruct c as [[] [] [] [] [] [] [] []]; reflexivity. Qed.

Lemma read_json_escape s rest :
  read_string (json_escape s +:+ String "034" rest) = Some (s, rest).
Proof.
  induction s as [|c s IH]; [reflexivity|]. cbn [json_escape].
  by rewrite string_app_assoc, read_escape_char, IH.
Qed.

Lemma strip_app prefix s : strip prefix (prefix +:+ s) = Some s.
Proof.
  induction prefix as [|p prefix IH]; [reflexivity|].
  change (strip (String p prefix) (String p (prefix +:+ s)) = Some s).
  cbn [strip]. by rewrite Ascii.eqb_refl.
Qed.

Lemma read_field_value before s rest :
  read_field before (before +:+ json_string s +:+ rest) = Some (s, rest).
Proof.
  unfold read_field, json_string.
  change (String "034" (json_escape s +:+ String "034" "") +:+ rest)
    with (String "034" "" +:+ (json_escape s +:+ String "034" "") +:+ rest).
  rewrite <- (string_app_assoc before), strip_app, string_app_assoc.
  apply read_json_escape.
Qed.

Lemma string_app_assoc3 (a b c x : string) :
  a +:+ b +:+ c +:+ x = (a +:+ b +:+ c) +:+ x.
Proof. by rewrite !string_app_assoc. Qed.

(** Reading a written line gives the record back. *)
Lemma parse_format record : parse (format record) = Some record.
Proof.
  rewrite format_unfold. unfold parse.
  rewrite (string_app_assoc3 "{"), read_field_value.
  rewrite (string_app_assoc3 ", "), read_field_value.
  rewrite (string_app_assoc3 ", "), read_field_value.
  rewrite (string_app_assoc3 ", "), read_field_value.
  by destruct record.
Qed.

(** X22: the escaping loses nothing: two records that [format] writes as the
    same line have the same level, message, logger name and time.  A message
    that contains quotes, commas or braces cannot pass for other fields. *)
Theorem format_injective r1 r2 : format r1 = format r2 -> r1 = r2.
Proof.
  intros H. apply (f_equal parse) in H. rewrite !parse_format in H. by injection H.
Qed.

Lemma format_injective_witness :
  rate_limit_warning "2025-01-01 00:00:00,000" =
  {| levelname := "WARNING"; getMessage := "rate_limit_exceeded";
     name := "bus-stop-api"; formatTime := "2025-01-01 00:00:00,000" |}.
Proof.
  apply (format_injective (rate_limit_warning "2025-01-01 00:00:00,000")).
  vm_compute. reflexivity.
Defined.

End LoggingExtra.
